(** * vLLM excerpt: block tables, request validation, caches, executor

    A shallow embedding of the Python sources

      - [vllm/block.py]                                   ([Module Block])
      - [vllm/entrypoints/openai/serving_engine.py]       ([Module Serving])
      - [vllm/model_executor/guided_decoding/xgrammar_decoding.py]
                                                          ([Module XGrammar])
      - [vllm/executor/gpu_executor.py]                   ([Module Executor])
      - [vllm/engine/multiprocessing/__init__.py]         ([Module RPC])
      - [vllm/inputs/preprocess.py]                       ([Module Preprocess])

    together with the block pool of the design document and its
    eviction, which have no source file in this excerpt ([Module Pool]).

    Python integers are unbounded and are modelled by [Z]; Python lists by
    [list]; dictionaries by [gmap]; [None]-able values by [option];
    exceptions by the left summand of a sum.  Objects that are shared by
    reference (blocks, tables) live in an explicit store and are named by
    their address. *)

From Stdlib Require Import ZArith QArith Lia.
From stdpp Require Import base tactics option list gmap strings pretty.

Local Open Scope Z_scope.

(** ** Exceptions *)

(** The exception classes the modelled code raises. *)
Inductive exn : Type :=
  | IndexError
  | ValueError
  | AssertionError
  | AttributeError
  | ZeroDivisionError
  | OverflowError.

#[global] Instance exn_eq_dec : EqDecision exn.
Proof. solve_decision. Defined.

(** ** Python list assignment *)

Module PyList.

Section Generic.
Context {A : Type}.

(** [l[key] = x] for an integer [key]: a negative key counts from the
    end, a key outside the list raises [IndexError]. *)
Definition norm_index (len key : Z) : option nat :=
  let k := if key <? 0 then key + len else key in
  if (0 <=? k) && (k <? len) then Some (Z.to_nat k) else None.

Definition setitem_index (l : list A) (key : Z) (x : A) : exn + list A :=
  match norm_index (Z.of_nat (length l)) key with
  | Some i => inr (<[i := x]> l)
  | None => inl IndexError
  end.

(** A slice object [slice(start, stop, step)]; [None] is the omitted
    bound. *)
Record slice := Slice { start : option Z; stop : option Z; step : option Z }.

(** One bound of [slice.indices(len)], as PySlice_AdjustIndices clamps
    it. [dflt] is the value of an omitted bound. *)
Definition adjust_bound (len st : Z) (dflt : Z) (b : option Z) : Z :=
  match b with
  | None => dflt
  | Some v =>
      if v <? 0 then
        let v' := v + len in
        if v' <? 0 then (if st <? 0 then -1 else 0) else v'
      else if len <=? v then (if st <? 0 then len - 1 else len)
      else v
  end.

(** [slice.indices(len)]: the clamped start, stop and step;
    a zero step raises [ValueError]. *)
Definition slice_indices (len : Z) (s : slice) : exn + (Z * Z * Z) :=
  let st := default 1 (step s) in
  if st =? 0 then inl ValueError
  else
    let lo := adjust_bound len st (if st <? 0 then len - 1 else 0) (start s) in
    let hi := adjust_bound len st (if st <? 0 then -1 else len) (stop s) in
    inr (lo, hi, st).

(** Number of positions an extended slice selects. *)
Definition slice_length (lo hi st : Z) : Z :=
  if st <? 0 then (if hi <? lo then (lo - hi - 1) / (- st) + 1 else 0)
  else (if lo <? hi then (hi - lo - 1) / st + 1 else 0).

(** The element-wise assignment loop of an extended slice:
    [l[cur] = v[i]; cur += step]. *)
Fixpoint assign_strided (l : list A) (cur st : Z) (v : list A) : list A :=
  match v with
  | [] => l
  | x :: v' => assign_strided (<[Z.to_nat cur := x]> l) (cur + st) st v'
  end.

(** [l[s] = v] for a slice [s]. With step 1 the selected range is
    replaced by [v], whatever its length; with any other step the
    lengths must agree, else [ValueError]. *)
Definition setitem_slice (l : list A) (s : slice) (v : list A) : exn + list A :=
  match slice_indices (Z.of_nat (length l)) s with
  | inl e => inl e
  | inr (lo, hi, st) =>
      if st =? 1 then
        let hi' := Z.max hi lo in
        inr (take (Z.to_nat lo) l ++ v ++ drop (Z.to_nat hi') l)
      else if Z.of_nat (length v) =? slice_length lo hi st
      then inr (assign_strided l lo st v)
      else inl ValueError
  end.
End Generic.

Arguments slice : clear implicits.

Section Reading.
Context {A : Type}.

(** [l[key]] for an integer [key]. *)
Definition getitem_index (l : list A) (key : Z) : exn + A :=
  match norm_index (Z.of_nat (length l)) key with
  | Some i =>
      match l !! i with
      | Some x => inr x
      | None => inl IndexError
      end
  | None => inl IndexError
  end.

(** The positions a slice selects: [lo], [lo + st], ... *)
Definition slice_positions (lo hi st : Z) : list Z :=
  (fun i => lo + i * st) <$> seqZ 0 (slice_length lo hi st).

(** [l[s]] for a slice [s]: a new list of the selected elements. *)
Definition getitem_slice (l : list A) (s : slice) : exn + list A :=
  match slice_indices (Z.of_nat (length l)) s with
  | inl e => inl e
  | inr (lo, hi, st) =>
      inr (omap (fun p => l !! Z.to_nat p) (slice_positions lo hi st))
  end.
End Reading.

End PyList.

(** ** [vllm/block.py] *)

Module Block.

(** [vllm.utils.Device], declared outside this excerpt: the storage
    device of a block. *)
Inductive Device : Type := GPU | CPU.

(** [DEFAULT_LAST_ACCESSED_TIME]. Finite timestamps are modelled by the
    rational number they denote. *)
Definition DEFAULT_LAST_ACCESSED_TIME : Q := (-1) # 1.

(** [@dataclass class PhysicalTokenBlock]. *)
Record PhysicalTokenBlock : Type := {
  device : Device;
  block_number : Z;
  block_size : Z;
  block_hash : Z;
  num_hashed_tokens : Z;
  ref_count : Z;
  last_accessed : Q;
  computed : bool
}.

(** The dataclass constructor with its field defaults. *)
Definition new_block (d : Device) (number size hash hashed : Z) : PhysicalTokenBlock :=
  {| device := d; block_number := number; block_size := size;
     block_hash := hash; num_hashed_tokens := hashed;
     ref_count := 0; last_accessed := DEFAULT_LAST_ACCESSED_TIME;
     computed := false |}.

#[global] Instance PhysicalTokenBlock_inhabited : Inhabited PhysicalTokenBlock :=
  populate (new_block GPU 0 0 0 0).

(** Addresses of objects. *)
Definition loc := nat.

(** The fields of a [BlockTable] object: the list of (references to)
    blocks and the cached list of their numbers. *)
Record BlockTable : Type := {
  _blocks : list loc;
  _block_ids : list Z
}.

(** The object store: block objects and table objects by address. *)
Record Heap : Type := {
  blocks : gmap loc PhysicalTokenBlock;
  tables : gmap loc BlockTable
}.

(** [b.block_number] for the block object at address [b]. *)
Definition number_at (bs : gmap loc PhysicalTokenBlock) (b : loc) : Z :=
  block_number (bs !!! b).

(** *** Method bodies

    Each method is a transformer of the fields of [self], reading the
    block store. None of them writes to a block. *)

(** [append]: [self._blocks.append(block);
               self._block_ids.append(block.block_number)]. *)
Definition append_fields (bs : gmap loc PhysicalTokenBlock)
    (self : BlockTable) (block : loc) : BlockTable :=
  {| _blocks := _blocks self ++ [block];
     _block_ids := _block_ids self ++ [number_at bs block] |}.

(** [__init__]: both lists start empty, then every given block is
    appended in order. *)
Definition init_fields (bs : gmap loc PhysicalTokenBlock)
    (blocks : option (list loc)) : BlockTable :=
  let empty := {| _blocks := []; _block_ids := [] |} in
  match blocks with
  | None => empty
  | Some l => foldl (append_fields bs) empty l
  end.

(** [reset]. *)
Definition reset_fields (self : BlockTable) : BlockTable :=
  {| _blocks := []; _block_ids := [] |}.

(** The shapes of [__setitem__]'s arguments: an integer key with a
    block, or a slice with a value the method reads twice, once for each
    of its two lists. That value is a list of blocks of its own
    ([AtSlice]) or the list object of a table ([AtSliceOf]): what
    [t.list()] returns, or the table [t] itself, which iterates over the
    same blocks. *)
Inductive setitem_args : Type :=
  | AtIndex (key : Z) (block : loc)
  | AtSlice (key : PyList.slice) (blocks : list loc)
  | AtSliceOf (key : PyList.slice) (t : loc).

(** [__setitem__]. The two assignments run one after the other: when the
    first raises nothing has changed, when the second raises [_blocks]
    has already been written. [blocks_of t cur] is what iterating over
    the list of table [t] gives while the fields of [self] are [cur]:
    the list assignment copies a value that is the list assigned to
    before it writes, and the comprehension of the second assignment
    reads the value again, after [_blocks] was written. The result is
    the exception, if any, and the fields afterwards. *)
Definition setitem_fields (bs : gmap loc PhysicalTokenBlock)
    (blocks_of : loc -> BlockTable -> list loc)
    (self : BlockTable) (a : setitem_args) : option exn * BlockTable :=
  match a with
  | AtSlice key blocks =>
      match PyList.setitem_slice (_blocks self) key blocks with
      | inl e => (Some e, self)
      | inr bl =>
          let self1 := {| _blocks := bl; _block_ids := _block_ids self |} in
          match PyList.setitem_slice (_block_ids self) key (number_at bs <$> blocks) with
          | inl e => (Some e, self1)
          | inr il => (None, {| _blocks := bl; _block_ids := il |})
          end
      end
  | AtSliceOf key t =>
      match PyList.setitem_slice (_blocks self) key (blocks_of t self) with
      | inl e => (Some e, self)
      | inr bl =>
          let self1 := {| _blocks := bl; _block_ids := _block_ids self |} in
          match PyList.setitem_slice (_block_ids self) key
                  (number_at bs <$> blocks_of t self1) with
          | inl e => (Some e, self1)
          | inr il => (None, {| _blocks := bl; _block_ids := il |})
          end
      end
  | AtIndex key block =>
      match PyList.setitem_index (_blocks self) key block with
      | inl e => (Some e, self)
      | inr bl =>
          let self1 := {| _blocks := bl; _block_ids := _block_ids self |} in
          match PyList.setitem_index (_block_ids self) key (number_at bs block) with
          | inl e => (Some e, self1)
          | inr il => (None, {| _blocks := bl; _block_ids := il |})
          end
      end
  end.

(** *** Methods on the store

    [self] is the address of a table object. On an address that holds no
    table the methods below leave the store as it is; no program reaches
    that case ([well_formed]). *)

(** Address of the next object. *)
Definition fresh_table (h : Heap) : loc := fresh (dom (tables h)).

Definition store_table (t : loc) (T : BlockTable) (h : Heap) : Heap :=
  {| blocks := blocks h; tables := <[t := T]> (tables h) |}.

(** [BlockTable(blocks)]: a new object. *)
Definition BlockTable_new (blocks : option (list loc)) (h : Heap) : loc * Heap :=
  let t := fresh_table h in
  (t, store_table t (init_fields (Block.blocks h) blocks) h).

(** Run a transformer of the fields on the object at [self]. *)
Definition on_table (self : loc) (f : BlockTable -> BlockTable) (h : Heap) : Heap :=
  match tables h !! self with
  | Some T => store_table self (f T) h
  | None => h
  end.

Definition append (self block : loc) (h : Heap) : Heap :=
  on_table self (fun T => append_fields (blocks h) T block) h.

Definition reset (self : loc) (h : Heap) : Heap :=
  on_table self reset_fields h.

(** [list] and [ids]. *)
Definition list_of (self : loc) (h : Heap) : list loc :=
  from_option _blocks [] (tables h !! self).
Definition ids (self : loc) (h : Heap) : list Z :=
  from_option _block_ids [] (tables h !! self).

(** [__setitem__] on the object at [self]: the list of a table [t] is
    read in the store as it is at that moment, with the fields of [self]
    written so far. *)
Definition setitem (self : loc) (a : setitem_args) (h : Heap) : option exn * Heap :=
  match tables h !! self with
  | Some T =>
      let '(e, T') :=
        setitem_fields (blocks h) (fun t cur => list_of t (store_table self cur h)) T a in
      (e, store_table self T' h)
  | None => (None, h)
  end.

(** [copy]: [return BlockTable(self._blocks)]. *)
Definition copy (self : loc) (h : Heap) : loc * Heap :=
  match tables h !! self with
  | Some T => BlockTable_new (Some (_blocks T)) h
  | None => BlockTable_new None h
  end.

(** [__len__] and [__getitem__] with an integer key. *)
Definition len (self : loc) (h : Heap) : Z :=
  Z.of_nat (length (list_of self h)).

Definition getitem (self : loc) (key : Z) (h : Heap) : exn + loc :=
  PyList.getitem_index (list_of self h) key.

(** *** Programs over the store

    A program is a sequence of the public operations of [BlockTable],
    interleaved with what the rest of the engine does to blocks: creating
    one, or writing fields of one other than its number. An operation can
    only be given objects that exist. *)
Inductive op : Type :=
  | New (blocks : option (list loc))
  | Append (self block : loc)
  | SetItem (self : loc) (a : setitem_args)
  | Reset (self : loc)
  | Copy (self : loc)
  | AllocBlock (b : PhysicalTokenBlock)
  | UpdateBlock (l : loc) (b : PhysicalTokenBlock).

Definition is_block (h : Heap) (l : loc) : bool :=
  bool_decide (is_Some (blocks h !! l)).

Definition is_table (h : Heap) (t : loc) : bool :=
  bool_decide (is_Some (tables h !! t)).

Definition well_formed (o : op) (h : Heap) : bool :=
  match o with
  | New bl => forallb (is_block h) (default [] bl)
  | Append self block => is_table h self && is_block h block
  | SetItem self (AtIndex _ block) => is_table h self && is_block h block
  | SetItem self (AtSlice _ bl) => is_table h self && forallb (is_block h) bl
  | SetItem self (AtSliceOf _ t) => is_table h self && is_table h t
  | Reset self => is_table h self
  | Copy self => is_table h self
  | AllocBlock _ => true
  | UpdateBlock l b =>
      match blocks h !! l with
      | Some old => block_number old =? block_number b
      | None => false
      end
  end.

Definition store_block (l : loc) (b : PhysicalTokenBlock) (h : Heap) : Heap :=
  {| blocks := <[l := b]> (blocks h); tables := tables h |}.

Definition exec (o : op) (h : Heap) : Heap :=
  if well_formed o h then
    match o with
    | New bl => (BlockTable_new bl h).2
    | Append self block => append self block h
    | SetItem self a => (setitem self a h).2
    | Reset self => reset self h
    | Copy self => (copy self h).2
    | AllocBlock b => store_block (fresh (dom (blocks h))) b h
    | UpdateBlock l b => store_block l b h
    end
  else h.

Definition run (program : list op) (h : Heap) : Heap :=
  foldl (fun h o => exec o h) h program.

(** The store before any object is created. *)
Definition empty_heap : Heap := {| blocks := ∅; tables := ∅ |}.

(** The cached ids of a table are the numbers of its blocks, in order. *)
Definition mirrors (bs : gmap loc PhysicalTokenBlock) (T : BlockTable) : Prop :=
  _block_ids T = number_at bs <$> _blocks T.

End Block.

(** ** The block pool of the design document

    The allocator has no source file in this excerpt; only the block
    record of [vllm/block.py] does. The definitions below follow the
    design document. *)

Module Pool.
Import Block.

(** Modelled from the spec: the PhysicalBlockPool, a fixed set of blocks
    (the block record is the one of [vllm/block.py]) and the
    PrefixCacheIndex, a map from content hash to block index. *)
Record PhysicalBlockPool : Type := {
  pool_blocks : list PhysicalTokenBlock;
  prefix_index : gmap Z Z
}.

Inductive PoolError : Type := PoolExhausted | NoEvictableBlock.

(** Modelled from the spec: the unreferenced blocks, those with reference
    count 0, in pool order. *)
Definition unreferenced (bl : list PhysicalTokenBlock) : list PhysicalTokenBlock :=
  filter (fun b => ref_count b = 0) bl.

(** Modelled from the spec: least-recently-used choice, the block with the
    oldest last-access time; the earlier block wins a tie. *)
Fixpoint oldest (b : PhysicalTokenBlock) (l : list PhysicalTokenBlock) : PhysicalTokenBlock :=
  match l with
  | [] => b
  | c :: l' => oldest (if Qle_bool (last_accessed b) (last_accessed c) then b else c) l'
  end.

(** Modelled from the spec: [invalidate(handle)] of the PrefixCacheIndex
    removes the mappings to a block. *)
Definition invalidate (handle : Z) (idx : gmap Z Z) : gmap Z Z :=
  filter (fun kv => kv.2 ≠ handle) idx.

(** Modelled from the spec: [evict_one() -> BlockHandle] selects the block
    with reference count 0 and the oldest last-access time among the
    unreferenced blocks, removes its prefix-cache mapping and returns it;
    it fails with [NoEvictableBlock] when there is no such block. *)
Definition evict_one (p : PhysicalBlockPool) : PoolError + (PhysicalTokenBlock * PhysicalBlockPool) :=
  match unreferenced (pool_blocks p) with
  | [] => inl NoEvictableBlock
  | b :: l =>
      let victim := oldest b l in
      inr (victim,
           {| pool_blocks := pool_blocks p;
              prefix_index := invalidate (block_number victim) (prefix_index p) |})
  end.

(** Reference counts count sequences: they are never negative. *)
Definition counts_nonneg (p : PhysicalBlockPool) : Prop :=
  Forall (fun b => 0 <= ref_count b) (pool_blocks p).

End Pool.

(** ** [vllm/entrypoints/openai/serving_engine.py] *)

Module Serving.

(** The request classes of [AnyRequest]
    ([vllm.entrypoints.openai.protocol]); [_validate_input] reads the
    class and, of the two generation requests, the field [max_tokens]. *)
Inductive AnyRequest : Type :=
  | ChatCompletionRequest (max_tokens : option Z)
  | CompletionRequest (max_tokens : option Z)
  | EmbeddingRequest
  | TokenizeCompletionRequest
  | TokenizeChatRequest
  | DetokenizeRequest.

(** [class TextTokensPrompt(TypedDict)]. *)
Record TextTokensPrompt : Type := {
  prompt : string;
  prompt_token_ids : list Z
}.

(** [OpenAIServing._validate_input], with [self.max_model_len] as first
    argument. The text of the error message is left out. *)
Definition _validate_input (max_model_len : Z) (request : AnyRequest)
    (input_ids : list Z) (input_text : string) : exn + TextTokensPrompt :=
  let token_num := Z.of_nat (length input_ids) in
  let accepted := {| prompt := input_text; prompt_token_ids := input_ids |} in
  match request with
  | EmbeddingRequest =>
      if max_model_len <? token_num then inl ValueError else inr accepted
  | TokenizeCompletionRequest | TokenizeChatRequest | DetokenizeRequest =>
      inr accepted
  | ChatCompletionRequest max_tokens | CompletionRequest max_tokens =>
      match max_tokens with
      | None =>
          if max_model_len <=? token_num then inl ValueError else inr accepted
      | Some m =>
          if max_model_len <? token_num + m then inl ValueError else inr accepted
      end
  end.

(** [@dataclass class BaseModelPath]. *)
Record BaseModelPath : Type := {
  name : string;
  model_path : string
}.

(** [ErrorResponse] of the protocol module, with the fields
    [create_error_response] sets. *)
Record ErrorResponse : Type := {
  message : string;
  type : string;
  code : Z
}.

(** [HTTPStatus.BAD_REQUEST.value] and [HTTPStatus.NOT_FOUND.value]. *)
Definition BAD_REQUEST : Z := 400.
Definition NOT_FOUND : Z := 404.

(** [OpenAIServing.create_error_response]; the callers below give all
    three arguments. *)
Definition create_error_response (message err_type : string) (status_code : Z) : ErrorResponse :=
  {| message := message; type := err_type; code := status_code |}.

(** [OpenAIServing._is_model_supported], with [self.base_model_paths] as
    first argument. *)
Definition _is_model_supported (base_model_paths : list BaseModelPath)
    (model_name : string) : bool :=
  existsb (fun model => String.eqb (name model) model_name) base_model_paths.

(** [OpenAIServing._check_model], on [request.model]. *)
Definition _check_model (base_model_paths : list BaseModelPath)
    (model : string) : option ErrorResponse :=
  if _is_model_supported base_model_paths model then None
  else Some (create_error_response
               ("The model `" +:+ model +:+ "` does not exist.")
               "NotFoundError" NOT_FOUND).

(** [OpenAIServing._maybe_get_adapters], on [request.model]: the pair
    [(None, None)] or [ValueError]. *)
Definition _maybe_get_adapters (base_model_paths : list BaseModelPath)
    (model : string) : exn + (option unit * option unit) :=
  if _is_model_supported base_model_paths model then inr (None, None)
  else inl ValueError.

Section Tokenizing.
(** The tokenizer ([AnyTokenizer]) as these methods use it:
    [tokenizer.decode(ids)], and the call [tokenizer(prompt, ...)] with
    [add_special_tokens] and, when truncating, [max_length]; the latter
    gives [encoded.input_ids]. *)
Variable decode : list Z -> string.
Variable encode : string -> bool -> option Z -> list Z.
Variable max_model_len : Z.

(** [OpenAIServing._normalize_prompt_tokens_to_input]. *)
Definition _normalize_prompt_tokens_to_input (request : AnyRequest)
    (prompt_ids : list Z) (truncate_prompt_tokens : option Z) : exn + TextTokensPrompt :=
  let sliced :=
    match truncate_prompt_tokens with
    | None => inr prompt_ids
    | Some k => PyList.getitem_slice prompt_ids (PyList.Slice (Some (- k)) None None)
    end in
  match sliced with
  | inl e => inl e
  | inr input_ids => _validate_input max_model_len request input_ids (decode input_ids)
  end.

(** [OpenAIServing._normalize_prompt_text_to_input]. *)
Definition _normalize_prompt_text_to_input (request : AnyRequest) (prompt : string)
    (truncate_prompt_tokens : option Z) (add_special_tokens : bool)
    : exn + TextTokensPrompt :=
  _validate_input max_model_len request
    (encode prompt add_special_tokens truncate_prompt_tokens) prompt.

(** [Logprob] as [_get_decoded_token] reads it. *)
Record Logprob : Type := { decoded_token : option string }.

(** [OpenAIServing._get_decoded_token]; [decode_token] is
    [tokenizer.decode] on one id. *)
Definition _get_decoded_token (decode_token : Z -> string) (logprob : Logprob)
    (token_id : Z) (return_as_token_id : bool) : string :=
  if return_as_token_id then "token_id:" +:+ pretty token_id
  else match decoded_token logprob with
       | Some s => s
       | None => decode_token token_id
       end.
End Tokenizing.

End Serving.

(** ** [vllm/model_executor/guided_decoding/xgrammar_decoding.py] *)

Module XGrammar.

(** [xgr.VocabType] of the xgrammar package. *)
Inductive VocabType : Type := RAW | BYTE_FALLBACK | BYTE_LEVEL.

(** [@dataclass(frozen=True) class TokenizerData]. *)
Record TokenizerData : Type := {
  encoded_vocab : list string;
  stop_token_ids : option (list Z);
  vocab_size : Z;
  vocab_type : option VocabType;
  add_prefix_space : bool
}.

(** What [xgr.TokenizerInfo.from_huggingface(tokenizer)] reports and the
    cache reads. *)
Record TokenizerInfo : Type := {
  info_add_prefix_space : bool;
  info_vocab_type : VocabType;
  info_vocab_size : Z
}.

(** A tokenizer object as [get_tokenizer_data] observes it: its [hash],
    the xgrammar info, the result of [get_vocab()] ([None] when the object
    has no such method) in iteration order, [eos_token_id] ([None] when
    absent or [None]) and whether it is a [MistralTokenizer]. *)
Record Tokenizer : Type := {
  tokenizer_hash_of : Z;
  from_huggingface : TokenizerInfo;
  get_vocab : option (list (string * Z));
  eos_token_id : option Z;
  is_mistral : bool
}.

(** [xgr.TokenizerInfo(...)] and [xgr.GrammarCompiler(tokenizer_info,
    max_threads=...)]: the compiler is determined by what it was built
    from. *)
Record GrammarCompiler : Type := {
  compiler_vocab : list string;
  compiler_vocab_type : option VocabType;
  compiler_vocab_size : Z;
  compiler_stop_token_ids : option (list Z);
  compiler_add_prefix_space : bool;
  compiler_max_threads : Z
}.

(** [@dataclass class GrammarConfig]. *)
Record GrammarConfig : Type := {
  tokenizer_hash : Z;
  config_vocab_size : Z;
  json_str : option string;
  grammar_str : option string;
  json_object : option bool;
  any_whitespace : bool;
  max_threads : Z;
  tokenizer_data : option TokenizerData
}.

(** What the miss branches do, for counting: the vocabulary extraction of
    a tokenizer hash, the construction of a compiler for a cache key. *)
Inductive event : Type :=
  | ExtractVocab (key : Z)
  | BuildCompiler (key : string).

#[global] Instance event_eq_dec : EqDecision event.
Proof. solve_decision. Defined.

(** The two class-level dictionaries, [TokenizerDataCache._cache] and
    [GrammarCompilerCache._cache], and the record of what ran. *)
Record Caches : Type := {
  tokenizer_cache : gmap Z TokenizerData;
  compiler_cache : gmap string GrammarCompiler;
  ran : list event
}.

(** The state at class definition: both dictionaries empty. *)
Definition initial : Caches :=
  {| tokenizer_cache := ∅; compiler_cache := ∅; ran := [] |}.

(** [for token, idx in vocab_dict.items():
       if idx < vocab_size: encoded_vocab[idx] = token].
    A negative [idx] counts from the end, as list assignment does. *)
Fixpoint fill_vocab (vocab_size : Z) (items : list (string * Z))
    (encoded : list string) : exn + list string :=
  match items with
  | [] => inr encoded
  | (token, idx) :: rest =>
      if idx <? vocab_size then
        match PyList.setitem_index encoded idx token with
        | inl e => inl e
        | inr encoded' => fill_vocab vocab_size rest encoded'
        end
      else fill_vocab vocab_size rest encoded
  end.

Definition log_event (e : event) (c : Caches) : Caches :=
  {| tokenizer_cache := tokenizer_cache c; compiler_cache := compiler_cache c;
     ran := ran c ++ [e] |}.

(** [TokenizerDataCache.get_tokenizer_data]. *)
Definition get_tokenizer_data (tokenizer : Tokenizer) (c : Caches)
    : (exn + TokenizerData) * Caches :=
  let key := tokenizer_hash_of tokenizer in
  match tokenizer_cache c !! key with
  | Some d => (inr d, c)
  | None =>
      let info := from_huggingface tokenizer in
      let c1 := log_event (ExtractVocab key) c in
      match get_vocab tokenizer with
      | None => (inl ValueError, c1)
      | Some vocab_dict =>
          match fill_vocab (info_vocab_size info) vocab_dict
                  (replicate (Z.to_nat (info_vocab_size info)) EmptyString) with
          | inl e => (inl e, c1)
          | inr encoded =>
              let stop := (fun e => [e]) <$> eos_token_id tokenizer in
              let d :=
                {| encoded_vocab := encoded;
                   stop_token_ids := stop;
                   vocab_size := info_vocab_size info;
                   vocab_type :=
                     Some (if is_mistral tokenizer then BYTE_FALLBACK
                           else info_vocab_type info);
                   add_prefix_space :=
                     if is_mistral tokenizer then true
                     else info_add_prefix_space info |} in
              (inr d,
               {| tokenizer_cache := <[key := d]> (tokenizer_cache c1);
                  compiler_cache := compiler_cache c1; ran := ran c1 |})
          end
      end
  end.

(** [GrammarCompilerCache.get_compiler]; the key is [str] of the hash.
    Of the two assertions of the miss branch the first fails when
    [tokenizer_data] is None; the second, on [encoded_vocab], holds for
    every list. *)
Definition get_compiler (config : GrammarConfig) (c : Caches)
    : (exn + GrammarCompiler) * Caches :=
  let cache_key : string := pretty (tokenizer_hash config) in
  match compiler_cache c !! cache_key with
  | Some k => (inr k, c)
  | None =>
      match tokenizer_data config with
      | None => (inl AssertionError, c)
      | Some config_data =>
          let c1 := log_event (BuildCompiler cache_key) c in
          let k :=
            {| compiler_vocab := encoded_vocab config_data;
               compiler_vocab_type := vocab_type config_data;
               compiler_vocab_size := vocab_size config_data;
               compiler_stop_token_ids := stop_token_ids config_data;
               compiler_add_prefix_space := add_prefix_space config_data;
               compiler_max_threads := max_threads config |} in
          (inr k,
           {| tokenizer_cache := tokenizer_cache c1;
              compiler_cache := <[cache_key := k]> (compiler_cache c1);
              ran := ran c1 |})
      end
  end.

(** How often an event is on record. *)
Definition times (e : event) (c : Caches) : nat :=
  length (filter (fun e' => e' = e) (ran c)).

(** A later call to either cache, whatever its arguments and outcome. *)
Inductive call : Type :=
  | CallTokenizerData (tokenizer : Tokenizer)
  | CallCompiler (config : GrammarConfig).

Definition run_call (k : call) (c : Caches) : Caches :=
  match k with
  | CallTokenizerData t => (get_tokenizer_data t c).2
  | CallCompiler g => (get_compiler g c).2
  end.

Definition run_calls (ks : list call) (c : Caches) : Caches :=
  foldl (fun c k => run_call k c) c ks.

(** *** Grammars from choices

    Strings are sequences of bytes; the two characters the escaping looks
    for are single bytes and occur in no longer UTF-8 sequence. *)

(** The double quote (code 34) and the backslash (code 92). *)
Definition dquote : Ascii.ascii := Ascii.ascii_of_nat 34.
Definition backslash : Ascii.ascii := Ascii.ascii_of_nat 92.

Definition is_special (c : Ascii.ascii) : bool :=
  Ascii.eqb c dquote || Ascii.eqb c backslash.

(** [GrammarConfig.escape_ebnf_string]: the substitution puts a backslash
    before every double quote and every backslash. *)
Fixpoint escape_ebnf_string (s : string) : string :=
  match s with
  | EmptyString => EmptyString
  | String c s' =>
      if is_special c then String backslash (String c (escape_ebnf_string s'))
      else String c (escape_ebnf_string s')
  end.

(** The f-string that puts a choice between double quotes. *)
Definition quoted (c : string) : string :=
  String dquote (c +:+ String dquote EmptyString).

(** [GrammarConfig.choice_as_grammar]. *)
Definition choice_as_grammar (choice : option (list string)) : exn + string :=
  match choice with
  | None => inl ValueError
  | Some cs =>
      inr ("root ::= " +:+ String.concat " | " (quoted <$> (escape_ebnf_string <$> cs)))
  end.

(** *** [GrammarConfig.from_guided_params] *)

Section GuidedParams.
(** A JSON schema given as a dictionary, with [json.dumps] and its
    truth value (an empty dictionary is false). *)
Context {Dict : Type}.
Variable dumps : Dict -> string.
Variable dict_nonempty : Dict -> bool.

(** The checks of the xgrammar package, [Grammar.from_json_schema] and
    [Grammar.from_ebnf]: [Some msg] when they raise [RuntimeError]. *)
Variable from_json_schema : string -> bool -> option string.
Variable from_ebnf : string -> option string.

(** [grammar_is_likely_lark] and [convert_lark_to_gbnf] of
    [guided_decoding.utils], outside this excerpt; the conversion raises
    [ValueError] ([None]) or gives the GBNF text. *)
Variable grammar_is_likely_lark : string -> bool.
Variable convert_lark_to_gbnf : string -> option string.

Inductive json_schema : Type :=
  | SchemaText (s : string)
  | SchemaDict (d : Dict).

(** [GuidedDecodingParams] as [from_guided_params] reads it;
    [backend_options] is the result of the method of that name. *)
Record GuidedDecodingParams : Type := {
  json : option json_schema;
  grammar : option string;
  guided_json_object : option bool;
  choice : option (list string);
  backend_options : list string
}.

(** Truth values of the fields, as [if] takes them. *)
Definition json_truthy (j : option json_schema) : bool :=
  match j with
  | None => false
  | Some (SchemaText s) => negb (String.eqb s EmptyString)
  | Some (SchemaDict d) => dict_nonempty d
  end.

Definition str_truthy (s : option string) : bool :=
  match s with
  | None => false
  | Some s => negb (String.eqb s EmptyString)
  end.

Definition list_truthy {A} (l : option (list A)) : bool :=
  match l with
  | None | Some [] => false
  | Some (_ :: _) => true
  end.

(** The configuration the classmethod builds: the fields it does not
    name keep their defaults. *)
Definition make_config (hash vsize threads : Z) (data : TokenizerData)
    (js gs : option string) (jo : option bool) (ws : bool) : GrammarConfig :=
  {| tokenizer_hash := hash; config_vocab_size := vsize; json_str := js;
     grammar_str := gs; json_object := jo; any_whitespace := ws;
     max_threads := threads; tokenizer_data := Some data |}.

(** [GrammarConfig.from_guided_params]; [vsize] is
    [model_config.hf_text_config.vocab_size]. The hint logged for Mistral
    and Qwen models is left out. *)
Definition from_guided_params (guided_params : GuidedDecodingParams) (vsize : Z)
    (tokenizer : Tokenizer) (threads : Z) (c : Caches)
    : (exn + GrammarConfig) * Caches :=
  let hash := tokenizer_hash_of tokenizer in
  match get_tokenizer_data tokenizer c with
  | (inl e, c') => (inl e, c')
  | (inr data, c') =>
      if json_truthy (json guided_params) then
        let js := match json guided_params with
                  | Some (SchemaDict d) => dumps d
                  | Some (SchemaText s) => s
                  | None => EmptyString
                  end in
        let ws := negb (existsb (String.eqb "disable-any-whitespace")
                          (backend_options guided_params)) in
        match from_json_schema js ws with
        | Some _ => (inl ValueError, c')
        | None => (inr (make_config hash vsize threads data (Some js) None None ws), c')
        end
      else if str_truthy (grammar guided_params) then
        let g := default EmptyString (grammar guided_params) in
        let converted := if grammar_is_likely_lark g then convert_lark_to_gbnf g else Some g in
        match converted with
        | None => (inl ValueError, c')
        | Some gs =>
            match from_ebnf gs with
            | Some _ => (inl ValueError, c')
            | None => (inr (make_config hash vsize threads data None (Some gs) None true), c')
            end
        end
      else if default false (guided_json_object guided_params) then
        (inr (make_config hash vsize threads data None None (Some true) true), c')
      else if list_truthy (choice guided_params) then
        match choice_as_grammar (choice guided_params) with
        | inl e => (inl e, c')
        | inr gs =>
            match from_ebnf gs with
            | Some _ => (inl ValueError, c')
            | None => (inr (make_config hash vsize threads data None (Some gs) None true), c')
            end
        end
      else (inl ValueError, c')
  end.
End GuidedParams.

(** *** [XGrammarLogitsProcessor._ensure_ctx] *)

Section Processor.
(** Compiled grammars ([xgr.CompiledGrammar]) and the three compile
    methods of a compiler. *)
Context {Ctx : Type}.
Variable compile_json_schema : GrammarCompiler -> string -> bool -> Ctx.
Variable compile_grammar : GrammarCompiler -> string -> Ctx.
Variable compile_builtin_json_grammar : GrammarCompiler -> Ctx.

(** [XGrammarLogitsProcessor._ensure_ctx] on a processor with
    configuration [config] and field [ctx]: the outcome, the field
    afterwards and the caches. *)
Definition _ensure_ctx (config : GrammarConfig) (ctx : option Ctx) (c : Caches)
    : option exn * option Ctx * Caches :=
  match ctx with
  | Some _ => (None, ctx, c)
  | None =>
      match get_compiler config c with
      | (inl e, c') => (Some e, None, c')
      | (inr compiler, c') =>
          match json_str config, grammar_str config, json_object config with
          | Some js, _, _ =>
              (None, Some (compile_json_schema compiler js (any_whitespace config)), c')
          | None, Some gs, _ => (None, Some (compile_grammar compiler gs), c')
          | None, None, Some true => (None, Some (compile_builtin_json_grammar compiler), c')
          | None, None, _ => (Some ValueError, None, c')
          end
      end
  end.
End Processor.

End XGrammar.

(** ** [vllm/executor/gpu_executor.py] *)

Module Executor.

(** The configuration objects of [vllm.config], with the fields the
    executor reads. *)
Record ParallelConfig : Type := {
  world_size : Z;
  tensor_parallel_size : Z
}.
Record SchedulerConfig : Type := { is_multi_step : bool }.
Record CacheConfig : Type := { block_size : Z }.
Record ModelConfig : Type := { max_model_len : Z }.

(** The worker behind the executor ([vllm.worker.worker_base.WorkerBase])
    and its factory ([create_worker], reached through
    [self._create_worker()]). A method may raise and may change the
    worker; the factory is given the configurations of the executor. *)
Class WorkerBase (W : Type) : Type := {
  _create_worker : ParallelConfig -> SchedulerConfig -> CacheConfig -> ModelConfig -> exn + W;
  init_device : W -> option exn * W;
  load_model : W -> option exn * W;
  worker_determine_num_available_blocks : W -> (exn + Z * Z) * W;
  worker_initialize_cache : Z -> Z -> W -> option exn * W
}.

(** The fields of a [GPUExecutor]; [driver_worker] is unset until
    [_init_executor] assigns it. *)
Record GPUExecutor (W : Type) : Type := {
  parallel_config : ParallelConfig;
  scheduler_config : SchedulerConfig;
  cache_config : CacheConfig;
  model_config : ModelConfig;
  driver_worker : option W
}.
Arguments parallel_config {W} _.
Arguments scheduler_config {W} _.
Arguments cache_config {W} _.
Arguments model_config {W} _.
Arguments driver_worker {W} _.

(** The calls made on the worker interface and the records handed to the
    logger, in order. *)
Inductive effect : Type :=
  | CreateWorker
  | InitDevice
  | LoadModel
  | DetermineNumAvailableBlocks
  | InitializeCache (num_gpu_blocks num_cpu_blocks : Z)
  | LogBlocks (num_gpu_blocks num_cpu_blocks : Z)
  | LogMaxConcurrency (max_model_len : Z) (max_concurrency : Q).



(** [a / b] on integers: the quotient as a float. It raises
    [ZeroDivisionError] for [b = 0] and [OverflowError] when the rounded
    quotient is no finite double, that is from [2^1024 - 2^970] on; the
    rounding itself is not modelled, the exact quotient stands for the
    float. *)
Definition float_overflow_bound : Z := 2 ^ 1024 - 2 ^ 970.

Definition true_div (a b : Z) : exn + Q :=
  if b =? 0 then inl ZeroDivisionError
  else if float_overflow_bound * Z.abs b <=? Z.abs a then inl OverflowError
  else inr (Qmake (a * Z.sgn b) (Z.to_pos (Z.abs b))).

Section Methods.
Context {W : Type} `{WorkerBase W}.

Definition set_driver_worker (w : W) (ex : GPUExecutor W) : GPUExecutor W :=
  {| parallel_config := parallel_config ex;
     scheduler_config := scheduler_config ex;
     cache_config := cache_config ex;
     model_config := model_config ex;
     driver_worker := Some w |}.

(** [GPUExecutor._init_executor]. The result is the exception, if any,
    the executor afterwards and the effects in order. *)
Definition _init_executor (ex : GPUExecutor W) : option exn * GPUExecutor W * list effect :=
  if negb (world_size (parallel_config ex) =? 1) then (Some AssertionError, ex, [])
  else
    match _create_worker (parallel_config ex) (scheduler_config ex)
            (cache_config ex) (model_config ex) with
    | inl e => (Some e, ex, [CreateWorker])
    | inr w =>
        let '(e1, w1) := init_device w in
        match e1 with
        | Some e => (Some e, set_driver_worker w1 ex, [CreateWorker; InitDevice])
        | None =>
            let '(e2, w2) := load_model w1 in
            (e2, set_driver_worker w2 ex, [CreateWorker; InitDevice; LoadModel])
        end
    end.

(** [GPUExecutor.determine_num_available_blocks]. On an executor whose
    [driver_worker] was never assigned the attribute access raises
    [AttributeError]. *)
Definition determine_num_available_blocks (ex : GPUExecutor W)
    : (exn + Z * Z) * GPUExecutor W * list effect :=
  match driver_worker ex with
  | None => (inl AttributeError, ex, [])
  | Some w =>
      let '(r, w') := worker_determine_num_available_blocks w in
      (r, set_driver_worker w' ex, [DetermineNumAvailableBlocks])
  end.

(** [GPUExecutor.initialize_cache]. *)
Definition initialize_cache (num_gpu_blocks num_cpu_blocks : Z) (ex : GPUExecutor W)
    : option exn * GPUExecutor W * list effect :=
  let log1 := LogBlocks num_gpu_blocks num_cpu_blocks in
  match true_div (num_gpu_blocks * block_size (cache_config ex))
          (max_model_len (model_config ex)) with
  | inl e => (Some e, ex, [log1])
  | inr max_concurrency =>
      let log2 := LogMaxConcurrency (max_model_len (model_config ex)) max_concurrency in
      match driver_worker ex with
      | None => (Some AttributeError, ex, [log1; log2])
      | Some w =>
          let '(e, w') := worker_initialize_cache num_gpu_blocks num_cpu_blocks w in
          (e, set_driver_worker w' ex,
           [log1; log2; InitializeCache num_gpu_blocks num_cpu_blocks])
      end
  end.
End Methods.

End Executor.

(** ** [vllm/engine/multiprocessing/__init__.py] *)

Module RPC.

Section Request.
(** [PromptType] of [vllm.inputs] and [Union[SamplingParams,
    PoolingParams]]: the constructor stores them as given. *)
Context {PromptType Params : Type}.

(** [@dataclass class RPCProcessRequest]. *)
Record RPCProcessRequest : Type := {
  prompt : PromptType;
  params : Params;
  request_id : string;
  trace_headers : option (gmap string string);
  priority : Z
}.

(** [RPCProcessRequest.__init__], the body under the [deprecate_kwargs]
    wrapper (which reports the use of [inputs] and calls the body with the
    same arguments). Arguments not given have their defaults: [None], and
    0 for [priority]. *)
Definition __init__ (prompt : option PromptType) (params : option Params)
    (request_id : option string) (trace_headers : option (gmap string string))
    (priority : Z) (inputs : option PromptType) : exn + RPCProcessRequest :=
  let prompt := match inputs with Some i => Some i | None => prompt end in
  match prompt, params, request_id with
  | Some p, Some q, Some r =>
      inr {| prompt := p; params := q; request_id := r;
             trace_headers := trace_headers; priority := priority |}
  | _, _, _ => inl AssertionError
  end.
End Request.

Arguments RPCProcessRequest : clear implicits.

End RPC.

(** ** [vllm/inputs/preprocess.py]

    The warnings handed to the logger are left out. *)

Module Preprocess.

(** [model_config.hf_config] as [get_decoder_start_token_id] reads it:
    the attribute [decoder_start_token_id] may be missing, and may hold
    [None]. *)
Record HFConfig : Type := { decoder_start_token_id : option (option Z) }.

Record ModelConfig : Type := { hf_config : option HFConfig }.

(** The tokenizer group ([BaseTokenizerGroup]): the two token ids of
    [self.tokenizer.tokenizer], and [encode(request_id, prompt)], which
    may raise. *)
Record TokenizerGroup : Type := {
  bos_token_id : option Z;
  eos_token_id : option Z;
  encode : string -> string -> exn + list Z
}.

(** [class InputPreprocessor]. *)
Record InputPreprocessor : Type := {
  model_config : option ModelConfig;
  tokenizer : option TokenizerGroup
}.

Definition get_tokenizer_group (self : InputPreprocessor) : exn + TokenizerGroup :=
  match tokenizer self with
  | None => inl ValueError
  | Some t => inr t
  end.

Definition get_bos_token_id (self : InputPreprocessor) : option Z :=
  match tokenizer self with
  | None => None
  | Some t => bos_token_id t
  end.

Definition get_eos_token_id (self : InputPreprocessor) : option Z :=
  match tokenizer self with
  | None => None
  | Some t => eos_token_id t
  end.

(** [getattr(hf_config, 'decoder_start_token_id', None)]. *)
Definition getattr_decoder_start_token_id (hf : HFConfig) : option Z :=
  match decoder_start_token_id hf with
  | None => None
  | Some v => v
  end.

Definition get_decoder_start_token_id (self : InputPreprocessor) : option Z :=
  match model_config self with
  | None => None
  | Some mc =>
      match hf_config mc with
      | None => None
      | Some hf =>
          match getattr_decoder_start_token_id hf with
          | None => get_bos_token_id self
          | Some dec_start_token_id => Some dec_start_token_id
          end
      end
  end.

Section Generation.
(** [self._get_default_enc_dec_decoder_prompt()], which the class of
    this excerpt does not define: whatever the call gives, a list or an
    exception. *)
Variable _get_default_enc_dec_decoder_prompt : InputPreprocessor -> exn + list Z.

(** [_prepare_decoder_input_ids_for_generation]. *)
Definition _prepare_decoder_input_ids_for_generation (self : InputPreprocessor)
    (decoder_input_ids : option (list Z)) (force_bos : bool) : exn + list Z :=
  match get_decoder_start_token_id self with
  | None => inl AssertionError
  | Some decoder_start_token_id =>
      let given :=
        match decoder_input_ids with
        | None => _get_default_enc_dec_decoder_prompt self
        | Some l => inr l
        end in
      match given with
      | inl e => inl e
      | inr ids =>
          if negb force_bos then inr ids
          else if Z.of_nat (length ids) =? 0 then inr (decoder_start_token_id :: ids)
          else
            match PyList.getitem_index ids 0 with
            | inl e => inl e
            | inr first =>
                if negb (first =? decoder_start_token_id)
                then inr (decoder_start_token_id :: ids)
                else inr ids
            end
      end
  end.
End Generation.

(** The three shapes [parse_singleton_prompt] ([vllm.inputs.parse]) tells
    apart: a string, a [TokensPrompt] and a [TextPrompt]. *)
Inductive SingletonPrompt : Type :=
  | StrPrompt (content : string)
  | TokensPrompt (token_ids : list Z)
  | TextPrompt (text : string).

(** [DecoderOnlyInputs] ([vllm.inputs.data]). *)
Record DecoderOnlyInputs : Type := {
  prompt_token_ids : list Z;
  prompt : option string
}.

Definition _tokenize_prompt (self : InputPreprocessor) (prompt request_id : string)
    : exn + list Z :=
  match get_tokenizer_group self with
  | inl e => inl e
  | inr t => encode t request_id prompt
  end.

(** [_extract_prompt_components]: the pair it returns. *)
Definition _extract_prompt_components (self : InputPreprocessor)
    (prompt : SingletonPrompt) (request_id : string) : exn + option string * list Z :=
  match prompt with
  | StrPrompt content =>
      match _tokenize_prompt self content request_id with
      | inl e => inl e
      | inr ids => inr (Some content, ids)
      end
  | TokensPrompt token_ids => inr (None, token_ids)
  | TextPrompt text =>
      match _tokenize_prompt self text request_id with
      | inl e => inl e
      | inr ids => inr (Some text, ids)
      end
  end.

Definition _build_decoder_only_llm_inputs (prompt_comps : option string * list Z)
    : DecoderOnlyInputs :=
  let '(prompt, prompt_token_ids) := prompt_comps in
  {| prompt_token_ids := prompt_token_ids; prompt := prompt |}.

Definition _process_decoder_only_prompt (self : InputPreprocessor)
    (prompt : SingletonPrompt) (request_id : string) : exn + DecoderOnlyInputs :=
  match _extract_prompt_components self prompt request_id with
  | inl e => inl e
  | inr prompt_comps => inr (_build_decoder_only_llm_inputs prompt_comps)
  end.

Definition preprocess (self : InputPreprocessor) (prompt : SingletonPrompt)
    (request_id : string) : exn + DecoderOnlyInputs :=
  _process_decoder_only_prompt self prompt request_id.

End Preprocess.

(** * Properties *)

(** ** List assignment commutes with mapping

    Whether an assignment raises depends on lengths only, and the
    positions written are the same: assigning the images to the image of
    a list gives the image of the result. *)

Module PyListFacts.
Import PyList.

Section Naturality.
Context {A B : Type} (f : A -> B).

Lemma setitem_index_fmap (l : list A) (key : Z) (x : A) :
  setitem_index (f <$> l) key (f x) =
  match setitem_index l key x with
  | inl e => inl e
  | inr l' => inr (f <$> l')
  end.
Proof.
  unfold setitem_index. rewrite length_fmap.
  destruct (norm_index _ key) as [i|]; [|done].
  by rewrite list_fmap_insert.
Qed.

Lemma assign_strided_fmap (v l : list A) (cur st : Z) :
  assign_strided (f <$> l) cur st (f <$> v) = f <$> assign_strided l cur st v.
Proof.
  revert l cur. induction v as [|x v IH]; intros l cur; simpl; [done|].
  by rewrite <- list_fmap_insert, IH.
Qed.

Lemma setitem_slice_fmap (l : list A) (s : slice) (v : list A) :
  setitem_slice (f <$> l) s (f <$> v) =
  match setitem_slice l s v with
  | inl e => inl e
  | inr l' => inr (f <$> l')
  end.
Proof.
  unfold setitem_slice. rewrite !length_fmap.
  destruct (slice_indices _ s) as [e|[[lo hi] st]]; [done|].
  destruct (st =? 1).
  - by rewrite !fmap_app, fmap_take, fmap_drop.
  - destruct (_ =? slice_length lo hi st); [|done].
    by rewrite assign_strided_fmap.
Qed.
End Naturality.

End PyListFacts.

(** ** Block tables *)

Module BlockFacts.
Import Block.

(** A table is sound in a block store when its cached ids mirror its
    blocks and every block it refers to exists. *)
Definition table_ok (bs : gmap loc PhysicalTokenBlock) (T : BlockTable) : Prop :=
  mirrors bs T ∧ Forall (fun l => is_Some (bs !! l)) (_blocks T).

Definition heap_ok (h : Heap) : Prop :=
  map_Forall (fun _ T => table_ok (blocks h) T) (tables h).

(** *** The method bodies keep a table sound *)

Lemma append_fields_ok bs T b :
  table_ok bs T -> is_Some (bs !! b) -> table_ok bs (append_fields bs T b).
Proof.
  intros [Hm Ha] Hb. split.
  - unfold mirrors in *. simpl. by rewrite Hm, fmap_app.
  - simpl. apply Forall_app. split; [done|]. by constructor.
Qed.

Lemma foldl_append_fields bs T l :
  foldl (append_fields bs) T l =
  {| _blocks := _blocks T ++ l; _block_ids := _block_ids T ++ (number_at bs <$> l) |}.
Proof.
  revert T. induction l as [|b l IH]; intros T; simpl.
  - rewrite !app_nil_r. by destruct T.
  - rewrite IH. simpl. by rewrite <- !app_assoc.
Qed.

Lemma init_fields_eq bs l :
  init_fields bs (Some l) = {| _blocks := l; _block_ids := number_at bs <$> l |}.
Proof. unfold init_fields. by rewrite foldl_append_fields. Qed.

Lemma init_fields_ok bs bl :
  Forall (fun l => is_Some (bs !! l)) (default [] bl) -> table_ok bs (init_fields bs bl).
Proof.
  destruct bl as [l|]; intros Hall.
  - rewrite init_fields_eq. by split.
  - split; [done|]. constructor.
Qed.

Lemma setitem_index_Forall {A} (P : A -> Prop) (l l' : list A) key x :
  Forall P l -> P x -> PyList.setitem_index l key x = inr l' -> Forall P l'.
Proof.
  unfold PyList.setitem_index. intros Hl Hx.
  destruct (PyList.norm_index _ key); intros [= <-].
  by apply Forall_insert.
Qed.

Lemma assign_strided_Forall {A} (P : A -> Prop) (v l : list A) cur st :
  Forall P l -> Forall P v -> Forall P (PyList.assign_strided l cur st v).
Proof.
  revert l cur. induction v as [|x v IH]; intros l cur Hl Hv; simpl; [done|].
  inversion Hv; subst. apply IH; [|done]. by apply Forall_insert.
Qed.

Lemma setitem_slice_Forall {A} (P : A -> Prop) (l l' v : list A) s :
  Forall P l -> Forall P v -> PyList.setitem_slice l s v = inr l' -> Forall P l'.
Proof.
  unfold PyList.setitem_slice. intros Hl Hv.
  destruct (PyList.slice_indices _ s) as [e|[[lo hi] st]]; [done|].
  destruct (st =? 1).
  - intros [= <-]. rewrite !Forall_app. split_and!; [by apply Forall_take|done|by apply Forall_drop].
  - destruct (_ =? _); [|done]. intros [= <-]. by apply assign_strided_Forall.
Qed.

(** The blocks an assignment is given exist; the list of a table given
    as the value of a slice is the list of another table, so it reads
    the same whatever is written to [self]. *)
Definition args_exist (bs : gmap loc PhysicalTokenBlock)
    (blocks_of : loc -> BlockTable -> list loc) (T : BlockTable) (a : setitem_args) : Prop :=
  match a with
  | AtIndex _ b => is_Some (bs !! b)
  | AtSlice _ bl => Forall (fun l => is_Some (bs !! l)) bl
  | AtSliceOf _ t =>
      Forall (fun l => is_Some (bs !! l)) (blocks_of t T)
      ∧ forall cur, blocks_of t cur = blocks_of t T
  end.

Lemma setitem_fields_ok bs blocks_of T a :
  table_ok bs T -> args_exist bs blocks_of T a ->
  table_ok bs (setitem_fields bs blocks_of T a).2.
Proof.
  intros [Hm Ha] Hargs. destruct a as [key b|key bl|key t]; simpl in *.
  - destruct (PyList.setitem_index (_blocks T) key b) as [e|l'] eqn:E; [by split|].
    rewrite Hm, PyListFacts.setitem_index_fmap, E. simpl. split; [done|].
    eapply setitem_index_Forall; [exact Ha|exact Hargs|exact E].
  - destruct (PyList.setitem_slice (_blocks T) key bl) as [e|l'] eqn:E; [by split|].
    rewrite Hm, PyListFacts.setitem_slice_fmap, E. simpl. split; [done|].
    eapply setitem_slice_Forall; [exact Ha|exact Hargs|exact E].
  - destruct Hargs as [Hex Hconst].
    destruct (PyList.setitem_slice (_blocks T) key (blocks_of t T)) as [e|l'] eqn:E;
      [by split|].
    rewrite (Hconst {| _blocks := l'; _block_ids := _block_ids T |}).
    rewrite Hm, PyListFacts.setitem_slice_fmap, E. simpl. split; [done|].
    eapply setitem_slice_Forall; [exact Ha|exact Hex|exact E].
Qed.

(** *** Changing the block store *)

Lemma table_ok_store bs bs' T :
  (forall l b, bs !! l = Some b ->
     exists b', bs' !! l = Some b' ∧ block_number b' = block_number b) ->
  table_ok bs T -> table_ok bs' T.
Proof.
  intros Hag [Hm Ha]. split.
  - unfold mirrors in *. rewrite Hm. apply Forall_fmap_ext_1.
    eapply Forall_impl; [exact Ha|]. intros l [b Hb]. simpl.
    destruct (Hag l b Hb) as (b' & Hb' & Hn).
    unfold number_at. by rewrite !lookup_total_alt, Hb, Hb'.
  - eapply Forall_impl; [exact Ha|]. intros l [b Hb]. simpl.
    destruct (Hag l b Hb) as (b' & Hb' & _). by exists b'.
Qed.

Lemma heap_ok_blocks_changed h bs' :
  (forall l b, blocks h !! l = Some b ->
     exists b', bs' !! l = Some b' ∧ block_number b' = block_number b) ->
  heap_ok h -> heap_ok {| blocks := bs'; tables := tables h |}.
Proof.
  intros Hag Hok t T Ht. simpl in *.
  eapply table_ok_store; [exact Hag|]. by apply (Hok t T).
Qed.

Lemma heap_ok_store_table h t T :
  heap_ok h -> table_ok (blocks h) T -> heap_ok (store_table t T h).
Proof.
  intros Hok HT. unfold heap_ok, store_table. simpl.
  by apply map_Forall_insert_2.
Qed.

(** *** Every operation keeps the store sound *)

Lemma is_block_true h l : is_block h l = true -> is_Some (blocks h !! l).
Proof. unfold is_block. by intros ?%bool_decide_eq_true. Qed.

Lemma is_table_true h t : is_table h t = true -> is_Some (tables h !! t).
Proof. unfold is_table. by intros ?%bool_decide_eq_true. Qed.

Lemma forallb_is_block h l :
  forallb (is_block h) l = true -> Forall (fun b => is_Some (blocks h !! b)) l.
Proof.
  induction l as [|b l IH]; simpl; [constructor|].
  intros [Hb Hl]%andb_true_iff. constructor; [by apply is_block_true|by apply IH].
Qed.

(** An operation that gives a table its own list, or the table itself,
    as the value of a slice assignment: [t[key] = t.list()]. *)
Definition own_list_slice (o : op) : bool :=
  match o with
  | SetItem self (AtSliceOf _ t) => bool_decide (t = self)
  | _ => false
  end.

Lemma list_of_other t self T h : t ≠ self -> list_of t (store_table self T h) = list_of t h.
Proof. intros Hne. unfold list_of, store_table. simpl. by rewrite lookup_insert_ne. Qed.

Lemma exec_ok o h : own_list_slice o = false -> heap_ok h -> heap_ok (exec o h).
Proof.
  intros Hown Hok. unfold exec. destruct (well_formed o h) eqn:W; [|done].
  destruct o as [bl|self b|self a|self|self|b|l b]; simpl in W.
  - apply heap_ok_store_table; [done|]. apply init_fields_ok. by apply forallb_is_block.
  - apply andb_true_iff in W as [[T HT]%is_table_true Hb%is_block_true].
    unfold append, on_table. rewrite HT.
    apply heap_ok_store_table; [done|]. apply append_fields_ok; [by apply (Hok self)|done].
  - assert (exists T, tables h !! self = Some T
              ∧ args_exist (blocks h) (fun t cur => list_of t (store_table self cur h)) T a)
      as (T & HT & Ha).
    { destruct a as [key b|key bl|key t]; apply andb_true_iff in W as [[T HT]%is_table_true Hb];
        exists T; (split; [done|]); simpl.
      - by apply is_block_true.
      - by apply forallb_is_block.
      - simpl in Hown. apply bool_decide_eq_false in Hown.
        apply is_table_true in Hb as [U HU].
        split; [|intros cur; by rewrite !list_of_other].
        rewrite list_of_other by done. unfold list_of. rewrite HU. simpl.
        by destruct (Hok t U HU). }
    unfold setitem. rewrite HT.
    pose proof (setitem_fields_ok (blocks h) _ T a (Hok self T HT) Ha) as HT'.
    destruct (setitem_fields (blocks h) _ T a) as [e T']. simpl in *.
    by apply heap_ok_store_table.
  - apply is_table_true in W as [T HT]. unfold reset, on_table. rewrite HT.
    apply heap_ok_store_table; [done|]. split; [done|constructor].
  - apply is_table_true in W as [T HT]. unfold copy. rewrite HT.
    apply heap_ok_store_table; [done|]. apply init_fields_ok. simpl.
    by destruct (Hok self T HT).
  - apply heap_ok_blocks_changed; [|done]. intros l blk Hl. exists blk. split; [|done].
    rewrite lookup_insert_ne; [done|]. intros <-.
    pose proof (is_fresh (dom (blocks h))) as Hf. apply Hf, elem_of_dom. by exists blk.
  - destruct (blocks h !! l) as [old|] eqn:Hold; [|done]. apply Z.eqb_eq in W.
    apply heap_ok_blocks_changed; [|done]. intros l' blk Hl'.
    destruct (decide (l = l')) as [<-|Hne].
    + exists b. rewrite lookup_insert_eq. split; [done|]. congruence.
    + exists blk. by rewrite lookup_insert_ne.
Qed.

Lemma run_ok program h :
  Forall (fun o => own_list_slice o = false) program -> heap_ok h -> heap_ok (run program h).
Proof.
  revert h. induction program as [|o program IH]; intros h Hall Hok; simpl; [done|].
  apply Forall_cons in Hall as [Ho Hall]. apply IH; [done|]. by apply exec_ok.
Qed.

Lemma empty_heap_ok : heap_ok empty_heap.
Proof. unfold heap_ok, empty_heap. simpl. apply map_Forall_empty. Qed.

(** For every program of table operations (construction from a block
    list, [append], [__setitem__] with an index or a slice, [reset],
    [copy]) in which no table is given its own list as the value of a
    slice, interleaved with any creation of blocks and any writes to
    block fields other than the number, and for every table object
    [self] of the resulting store: [ids()] has the length of [list()]
    and, at every index, holds the number of the block [list()] holds
    there. *)
Lemma ids_mirror_blocks (program : list op) (self : loc) :
  Forall (fun o => own_list_slice o = false) program ->
  let h := run program empty_heap in
  length (ids self h) = length (list_of self h)
  ∧ forall i : nat,
      ids self h !! i = (fun b => block_number (blocks h !!! b)) <$> (list_of self h !! i).
Proof.
  intros Hall h. pose proof (run_ok program empty_heap Hall empty_heap_ok) as Hok.
  fold h in Hok. unfold ids, list_of.
  destruct (tables h !! self) as [T|] eqn:HT; simpl.
  - destruct (Hok self T HT) as [Hm _]. unfold mirrors in Hm. rewrite Hm.
    split; [by rewrite length_fmap|]. intros i. by rewrite list_lookup_fmap.
  - split; [done|]. intros i. by rewrite lookup_nil.
Qed.

(** The invariant, for one table of one store. *)
Definition ids_mirror (self : loc) (h : Heap) : Prop :=
  length (ids self h) = length (list_of self h)
  ∧ forall i : nat,
      ids self h !! i = (fun b => block_number (blocks h !!! b)) <$> (list_of self h !! i).

(** Three blocks numbered 10, 11, 12, a table [t] of them, and
    [t[0:1] = t.list()]. *)
Definition own_list_program : list op :=
  [ AllocBlock (new_block GPU 10 16 0 0); AllocBlock (new_block GPU 11 16 0 0);
    AllocBlock (new_block GPU 12 16 0 0);
    New (Some [0%nat; 1%nat; 2%nat]);
    SetItem 0%nat (AtSliceOf (PyList.Slice (Some 0) (Some 1) None) 0%nat) ].

(** C6. The invariant does not hold of every table the public operations
    reach. In [__setitem__] with a slice, the numbers for [_block_ids]
    are read from the value after [_blocks] was assigned; when the value
    is the list of the table itself, they are the numbers of the new
    list. After [t[0:1] = t.list()] on a table of three blocks, [list()]
    has five blocks and [ids()] seven numbers. *)
Theorem own_list_slice_breaks_mirror :
  let h := run own_list_program empty_heap in
  list_of 0%nat h = [0%nat; 1%nat; 2%nat; 1%nat; 2%nat]
  ∧ ids 0%nat h = [10; 11; 12; 11; 12; 11; 12]
  ∧ ¬ ids_mirror 0%nat h
  ∧ ¬ (forall program self, ids_mirror self (run program empty_heap)).
Proof.
  assert (list_of 0%nat (run own_list_program empty_heap)
          = [0%nat; 1%nat; 2%nat; 1%nat; 2%nat]) as Hl by (vm_compute; reflexivity).
  assert (ids 0%nat (run own_list_program empty_heap) = [10; 11; 12; 11; 12; 11; 12]) as Hi
    by (vm_compute; reflexivity).
  assert (¬ ids_mirror 0%nat (run own_list_program empty_heap)) as Hno.
  { intros [Hlen _]. rewrite Hl, Hi in Hlen. simpl in Hlen. lia. }
  split_and!; [done|done|done|]. intros Hall. apply Hno, Hall.
Qed.

(** A run: three blocks numbered 10, 11, 12, a table of the first two, the
    third appended, a stride-2 slice swapping in two blocks, a slice
    assignment of the wrong length (which raises and changes nothing), a
    step-1 slice inserting in the middle, and a copy. *)
Definition sample_program : list op :=
  [ AllocBlock (new_block GPU 10 16 0 0); AllocBlock (new_block GPU 11 16 0 0);
    AllocBlock (new_block GPU 12 16 0 0);
    New (Some [0%nat; 1%nat]);
    Append 0%nat 2%nat;
    SetItem 0%nat (AtSlice (PyList.Slice None None (Some 2)) [2%nat; 0%nat]);
    SetItem 0%nat (AtSlice (PyList.Slice None None (Some (-1))) [1%nat]);
    SetItem 0%nat (AtSlice (PyList.Slice (Some 1) (Some 1) None) [1%nat; 1%nat]);
    SetItem 0%nat (AtIndex (-1) 2%nat);
    Copy 0%nat;
    Reset 0%nat ].

Example sample_program_tables :
  let h := run sample_program empty_heap in
  (list_of 0%nat h, ids 0%nat h) = ([], [])
  ∧ (list_of 1%nat h, ids 1%nat h)
    = ([2%nat; 1%nat; 1%nat; 1%nat; 2%nat], [12; 11; 11; 11; 12]).
Proof. vm_compute. split; reflexivity. Qed.

Example setitem_wrong_length_raises :
  setitem_fields ∅ (fun _ _ => []) {| _blocks := [0%nat; 1%nat]; _block_ids := [10; 11] |}
    (AtSlice (PyList.Slice None None (Some (-1))) [1%nat])
  = (Some ValueError, {| _blocks := [0%nat; 1%nat]; _block_ids := [10; 11] |})
  ∧ setitem_fields ∅ (fun _ _ => []) {| _blocks := [0%nat; 1%nat]; _block_ids := [10; 11] |}
      (AtIndex 2 1%nat)
    = (Some IndexError, {| _blocks := [0%nat; 1%nat]; _block_ids := [10; 11] |}).
Proof. split; reflexivity. Qed.

(** *** Forking a table *)

Lemma copy_blocks self h : blocks (copy self h).2 = blocks h.
Proof. unfold copy. by destruct (tables h !! self). Qed.

Lemma fresh_table_unused h : tables h !! fresh_table h = None.
Proof. apply not_elem_of_dom. unfold fresh_table. apply is_fresh. Qed.

(** What the design document says of forking: the reference count of
    every block the table refers to is one higher afterwards. *)
Definition copy_increments_ref_counts (self : loc) (h : Heap) : Prop :=
  forall b blk, b ∈ list_of self h -> blocks h !! b = Some blk ->
    ref_count <$> (blocks (copy self h).2 !! b) = Some (ref_count blk + 1).

(** A store with one block, referenced once, and one table holding it. *)
Definition shared_block : PhysicalTokenBlock :=
  {| device := GPU; block_number := 7; block_size := 16; block_hash := 0;
     num_hashed_tokens := 0; ref_count := 1;
     last_accessed := DEFAULT_LAST_ACCESSED_TIME; computed := false |}.

Definition parent_table : BlockTable := {| _blocks := [0%nat]; _block_ids := [7] |}.

Definition parent_heap : Heap :=
  {| blocks := {[ 0%nat := shared_block ]}; tables := {[ 0%nat := parent_table ]} |}.

(** C1, as stated, fails: after [copy] the block of [parent_table] still
    has reference count 1, not 2. *)
Lemma copy_keeps_ref_count_1 : ¬ copy_increments_ref_counts 0%nat parent_heap.
Proof.
  intros Hinc.
  specialize (Hinc 0%nat shared_block).
  rewrite copy_blocks in Hinc.
  assert (0%nat ∈ list_of 0%nat parent_heap) as Hin.
  { unfold list_of, parent_heap. simpl. rewrite lookup_singleton_eq. simpl. by left. }
  assert (blocks parent_heap !! 0%nat = Some shared_block) as Hb.
  { unfold parent_heap. simpl. by rewrite lookup_singleton_eq. }
  specialize (Hinc Hin Hb). vm_compute in Hinc. discriminate.
Qed.

(** C1, amended. [copy] on a table object [self] with fields [T] returns
    the address of a new table object; its block list is that of [self],
    its id list holds the numbers of those blocks (and is therefore the id
    list of [self] whenever that mirrors its blocks); [self] keeps its
    fields, and no block is written: the block store, reference counts
    included, is the same afterwards. *)
Theorem copy_shares_blocks (h : Heap) (self : loc) (T : BlockTable) :
  tables h !! self = Some T ->
  let r := copy self h in
  tables h !! r.1 = None
  ∧ list_of r.1 r.2 = list_of self h
  ∧ ids r.1 r.2 = number_at (blocks h) <$> list_of self h
  ∧ (mirrors (blocks h) T -> ids r.1 r.2 = ids self h)
  ∧ tables r.2 !! self = Some T
  ∧ blocks r.2 = blocks h
  ∧ forall b, ref_count <$> (blocks r.2 !! b) = ref_count <$> (blocks h !! b).
Proof.
  intros HT r.
  assert (r = (fresh_table h, store_table (fresh_table h) (init_fields (blocks h) (Some (_blocks T))) h)) as ->.
  { unfold r, copy. by rewrite HT. }
  pose proof (fresh_table_unused h) as Hfresh.
  assert (fresh_table h ≠ self) as Hne by (intros E; rewrite E in Hfresh; congruence).
  rewrite init_fields_eq. unfold list_of, ids, store_table. simpl.
  rewrite lookup_insert_eq, lookup_insert_ne, HT by done. simpl.
  split_and!; try done.
Qed.

Lemma copy_shares_blocks_witness :
  tables parent_heap !! 0%nat = Some parent_table
  ∧ list_of (copy 0%nat parent_heap).1 (copy 0%nat parent_heap).2 = list_of 0%nat parent_heap
  ∧ blocks (copy 0%nat parent_heap).2 = blocks parent_heap.
Proof.
  assert (tables parent_heap !! 0%nat = Some parent_table) as HT by reflexivity.
  pose proof (copy_shares_blocks parent_heap 0%nat parent_table HT) as (_ & Hl & _ & _ & _ & Hb & _).
  exact (conj HT (conj Hl Hb)).
Defined.

End BlockFacts.

(** ** Request validation *)

Module ServingFacts.
Import Serving.

(** The length conditions in words: a generation request is too long when
    prompt and completion together exceed the context length, or, with no
    completion length given, when the prompt alone reaches it; an
    embedding request when the prompt exceeds it. *)
Definition generation_too_long (max_model_len : Z) (max_tokens : option Z) (token_num : Z) : Prop :=
  match max_tokens with
  | Some m => token_num + m > max_model_len
  | None => token_num >= max_model_len
  end.

Definition embedding_too_long (max_model_len token_num : Z) : Prop :=
  token_num > max_model_len.

(** The outcome the length condition [too_long] prescribes. *)
Definition rejects_exactly_when (too_long : Prop) (accepted : TextTokensPrompt)
    (result : exn + TextTokensPrompt) : Prop :=
  (result = inl ValueError <-> too_long) ∧ (result = inr accepted <-> ¬ too_long).

Lemma rejects_by_test (b : bool) (too_long : Prop) accepted :
  (b = true <-> too_long) ->
  rejects_exactly_when too_long accepted (if b then inl ValueError else inr accepted).
Proof.
  intros Hb. destruct b; split; split; try done.
  - intros _. by apply Hb.
  - intros Hn. exfalso. by apply Hn, Hb.
  - intros Ht. apply Hb in Ht. discriminate.
  - intros _ Ht. apply Hb in Ht. discriminate.
Qed.

(** C2. For the generation requests ([ChatCompletionRequest],
    [CompletionRequest]) [_validate_input] raises [ValueError] exactly when
    the prompt is too long: with [max_tokens] set, when
    [len(input_ids) + max_tokens > max_model_len]; with [max_tokens] None,
    when [len(input_ids) >= max_model_len]; otherwise it returns the
    prompt with text and ids as given. For [EmbeddingRequest] the bound is
    [len(input_ids) > max_model_len]. *)
Theorem validate_input_rejects_too_long (max_model_len : Z) (max_tokens : option Z)
    (input_ids : list Z) (input_text : string) :
  let token_num := Z.of_nat (length input_ids) in
  let accepted := {| prompt := input_text; prompt_token_ids := input_ids |} in
  rejects_exactly_when (generation_too_long max_model_len max_tokens token_num) accepted
    (_validate_input max_model_len (ChatCompletionRequest max_tokens) input_ids input_text)
  ∧ rejects_exactly_when (generation_too_long max_model_len max_tokens token_num) accepted
      (_validate_input max_model_len (CompletionRequest max_tokens) input_ids input_text)
  ∧ rejects_exactly_when (embedding_too_long max_model_len token_num) accepted
      (_validate_input max_model_len EmbeddingRequest input_ids input_text).
Proof.
  intros token_num accepted.
  assert (rejects_exactly_when (generation_too_long max_model_len max_tokens token_num)
            accepted
            (match max_tokens with
             | None => if max_model_len <=? token_num then inl ValueError else inr accepted
             | Some m => if max_model_len <? token_num + m then inl ValueError else inr accepted
             end)) as Hgen.
  { destruct max_tokens as [m|]; apply rejects_by_test; simpl.
    - rewrite Z.ltb_lt. lia.
    - rewrite Z.leb_le. lia. }
  split_and!.
  - exact Hgen.
  - exact Hgen.
  - unfold _validate_input. apply rejects_by_test. unfold embedding_too_long.
    fold token_num. rewrite Z.ltb_lt. lia.
Qed.

(** C10. For [TokenizeCompletionRequest], [TokenizeChatRequest] and
    [DetokenizeRequest], whatever the context length and however long
    [input_ids] is, [_validate_input] does not raise: it returns the
    prompt with text and ids as given. *)
Theorem validate_input_tokenize_unchecked (max_model_len : Z)
    (input_ids : list Z) (input_text : string) :
  let accepted := {| prompt := input_text; prompt_token_ids := input_ids |} in
  _validate_input max_model_len TokenizeCompletionRequest input_ids input_text = inr accepted
  ∧ _validate_input max_model_len TokenizeChatRequest input_ids input_text = inr accepted
  ∧ _validate_input max_model_len DetokenizeRequest input_ids input_text = inr accepted.
Proof.
  intros accepted. unfold _validate_input.
  split; [|split]; reflexivity.
Qed.

(** A tokenize request far beyond the context length is returned as is,
    where the same ids in a completion request are rejected. *)
Example tokenize_beyond_context :
  _validate_input 2 TokenizeChatRequest [1; 2; 3; 4; 5] "hello"
    = inr {| prompt := "hello"; prompt_token_ids := [1; 2; 3; 4; 5] |}
  ∧ _validate_input 2 (CompletionRequest None) [1; 2; 3; 4; 5] "hello" = inl ValueError
  ∧ _validate_input 5 (CompletionRequest None) [1; 2; 3; 4; 5] "hello" = inl ValueError
  ∧ _validate_input 5 EmbeddingRequest [1; 2; 3; 4; 5] "hello"
    = inr {| prompt := "hello"; prompt_token_ids := [1; 2; 3; 4; 5] |}
  ∧ _validate_input 8 (ChatCompletionRequest (Some 3)) [1; 2; 3; 4; 5] "hello"
    = inr {| prompt := "hello"; prompt_token_ids := [1; 2; 3; 4; 5] |}
  ∧ _validate_input 7 (ChatCompletionRequest (Some 3)) [1; 2; 3; 4; 5] "hello" = inl ValueError.
Proof. repeat split. Qed.

End ServingFacts.

(** ** The deprecated keyword of [RPCProcessRequest] *)

Module RPCFacts.
Import RPC.

Section Request.
Context {PromptType Params : Type}.

Lemma init_fails_iff (prompt inputs : option PromptType) (params : option Params)
    (request_id : option string) trace_headers priority :
  __init__ prompt params request_id trace_headers priority inputs = inl AssertionError
  <-> (prompt = None ∧ inputs = None) ∨ params = None ∨ request_id = None.
Proof.
  unfold __init__.
  destruct inputs as [i|], prompt as [p|], params as [q|], request_id as [r|];
    split; try done; try (intros [[? ?]|[?|?]]; done); intros _; auto.
Qed.

(** C9. Constructing with the deprecated keyword [inputs=p] gives the same
    result as constructing with [prompt=p] and the same other arguments;
    when [params] and [request_id] are given that result is the request
    with fields [p], [params], [request_id], [trace_headers], [priority].
    Construction fails by assertion exactly when neither [prompt] nor
    [inputs] is given, or [params] is missing, or [request_id] is. *)
Theorem init_inputs_as_prompt (p : PromptType) (trace_headers : option (gmap string string))
    (priority : Z) :
  (forall (params : option Params) request_id,
     __init__ None params request_id trace_headers priority (Some p)
     = __init__ (Some p) params request_id trace_headers priority None)
  ∧ (forall (q : Params) r,
       __init__ None (Some q) (Some r) trace_headers priority (Some p)
       = inr {| prompt := p; params := q; request_id := r;
                trace_headers := trace_headers; priority := priority |})
  ∧ (forall (prompt inputs : option PromptType) (params : option Params) request_id,
       __init__ prompt params request_id trace_headers priority inputs = inl AssertionError
       <-> (prompt = None ∧ inputs = None) ∨ params = None ∨ request_id = None).
Proof.
  split; [|split].
  - intros params request_id. unfold __init__. reflexivity.
  - intros q r. unfold __init__. reflexivity.
  - intros prompt inputs params request_id. apply init_fails_iff.
Qed.
End Request.

(** With both [prompt] and [inputs] given, [inputs] is the one stored. *)
Example inputs_overrides_prompt :
  __init__ (Some 1%nat) (Some tt) (Some "r") None 0 (Some 2%nat)
  = inr {| prompt := 2%nat; params := tt; request_id := "r";
           trace_headers := None; priority := 0 |}.
Proof. reflexivity. Qed.

End RPCFacts.

(** ** Eviction *)

Module PoolFacts.
Import Block Pool.

Lemma oldest_elem b l : oldest b l ∈ b :: l.
Proof.
  revert b. induction l as [|c l IH]; intros b; simpl; [by left|].
  destruct (Qle_bool (last_accessed b) (last_accessed c)).
  - specialize (IH b). apply elem_of_cons in IH as [->|Hin]; [by left|by do 2 right].
  - right. apply IH.
Qed.

Lemma oldest_le_head b l : Qle (last_accessed (oldest b l)) (last_accessed b).
Proof.
  revert b. induction l as [|c l IH]; intros b; simpl; [apply Qle_refl|].
  destruct (Qle_bool (last_accessed b) (last_accessed c)) eqn:E; [apply IH|].
  eapply Qle_trans; [apply IH|].
  apply Qlt_le_weak, Qnot_le_lt. intros Hle. apply Qle_bool_iff in Hle. congruence.
Qed.

Lemma oldest_le b l c : c ∈ b :: l -> Qle (last_accessed (oldest b l)) (last_accessed c).
Proof.
  revert b. induction l as [|d l IH]; intros b Hin.
  - apply list_elem_of_singleton in Hin as ->. apply Qle_refl.
  - simpl. apply elem_of_cons in Hin as [->|Hin].
    + destruct (Qle_bool (last_accessed b) (last_accessed d)) eqn:E; [apply oldest_le_head|].
      eapply Qle_trans; [apply oldest_le_head|].
      apply Qlt_le_weak, Qnot_le_lt. intros Hle. apply Qle_bool_iff in Hle. congruence.
    + destruct (Qle_bool (last_accessed b) (last_accessed d)) eqn:E.
      * apply elem_of_cons in Hin as [->|Hin].
        -- eapply Qle_trans; [apply oldest_le_head|]. by apply Qle_bool_iff.
        -- apply IH. by right.
      * by apply IH.
Qed.

Lemma invalidate_lookup handle idx k : invalidate handle idx !! k ≠ Some handle.
Proof.
  unfold invalidate. intros Hk. apply map_lookup_filter_Some in Hk as [_ Hne].
  by apply Hne.
Qed.

(** C3. In a pool whose reference counts are counts (none negative),
    [evict_one] either fails with [NoEvictableBlock], and then every block
    has reference count at least 1, or returns a block of the pool with
    reference count 0 (so never one with a positive count) whose
    last-access time is the oldest among all blocks with reference count
    0, and leaves no prefix-cache mapping to it; it fails whenever every
    block has reference count at least 1. *)
Theorem evict_one_unreferenced_lru (p : PhysicalBlockPool) :
  counts_nonneg p ->
  match evict_one p with
  | inl e => e = NoEvictableBlock ∧ Forall (fun b => 1 <= ref_count b) (pool_blocks p)
  | inr (victim, p') =>
      victim ∈ pool_blocks p
      ∧ ref_count victim = 0
      ∧ ¬ (0 < ref_count victim)
      ∧ (forall b, b ∈ pool_blocks p -> ref_count b = 0 ->
           Qle (last_accessed victim) (last_accessed b))
      ∧ pool_blocks p' = pool_blocks p
      ∧ (forall k, prefix_index p' !! k ≠ Some (block_number victim))
      ∧ ¬ Forall (fun b => 1 <= ref_count b) (pool_blocks p)
  end
  ∧ (Forall (fun b => 1 <= ref_count b) (pool_blocks p) -> evict_one p = inl NoEvictableBlock).
Proof.
  intros Hnn. unfold evict_one.
  destruct (unreferenced (pool_blocks p)) as [|b l] eqn:E.
  - assert (Forall (fun b => 1 <= ref_count b) (pool_blocks p)) as Hall.
    { apply Forall_forall. intros b Hb.
      assert (0 <= ref_count b) as H0.
      { unfold counts_nonneg in Hnn. rewrite Forall_forall in Hnn. by apply Hnn. }
      destruct (decide (ref_count b = 0)) as [Hz|Hz]; [|lia].
      assert (b ∈ unreferenced (pool_blocks p)) as Hin
        by (apply list_elem_of_filter; by split).
      rewrite E in Hin. by apply elem_of_nil in Hin. }
    by split.
  - pose proof (oldest_elem b l) as Hin. rewrite <- E in Hin.
    apply list_elem_of_filter in Hin as [Hz Hin]. simpl.
    assert (¬ Forall (fun b => 1 <= ref_count b) (pool_blocks p)) as Hnot.
    { rewrite Forall_forall. intros Hall. specialize (Hall _ Hin). simpl in Hall. lia. }
    split; [|by intros Hall].
    split_and!; [done|done|lia| |done|apply invalidate_lookup|done].
    intros c Hc Hcz. apply oldest_le. rewrite <- E. apply list_elem_of_filter. by split.
Qed.

(** A pool of three blocks: one in use, two unreferenced, the second of
    which was accessed earlier; the index maps a hash to each. *)
Definition pool_block (number refs : Z) (accessed : Q) : PhysicalTokenBlock :=
  {| device := GPU; block_number := number; block_size := 4; block_hash := number + 100;
     num_hashed_tokens := 4; ref_count := refs; last_accessed := accessed;
     computed := true |}.

Definition lru_pool : PhysicalBlockPool :=
  {| pool_blocks := [pool_block 0 2 (1 # 1); pool_block 1 0 (9 # 2); pool_block 2 0 (3 # 1)];
     prefix_index := {[ 100 := 0; 101 := 1; 102 := 2 ]} |}.

Lemma evict_one_unreferenced_lru_witness :
  counts_nonneg lru_pool
  ∧ (Forall (fun b => 1 <= ref_count b) (pool_blocks lru_pool) ->
     evict_one lru_pool = inl NoEvictableBlock).
Proof.
  assert (counts_nonneg lru_pool) as Hnn.
  { unfold counts_nonneg, lru_pool. simpl. repeat constructor; simpl; lia. }
  exact (conj Hnn (proj2 (evict_one_unreferenced_lru lru_pool Hnn))).
Defined.

(** On that pool the block accessed at time 3 is evicted, not the one in
    use, which is older, and its mapping is gone. *)
Example evict_one_lru_pool :
  (fun r => match r with
            | inr (victim, p') =>
                Some (block_number victim, ref_count victim,
                      [prefix_index p' !! 100; prefix_index p' !! 101; prefix_index p' !! 102])
            | inl _ => None
            end) (evict_one lru_pool)
  = Some (2, 0, [Some 0; Some 1; None]).
Proof. vm_compute. reflexivity. Qed.

End PoolFacts.

(** ** The tokenizer and compiler caches *)

Module XGrammarFacts.
Import XGrammar.

(** *** A hit returns the entry and does nothing else *)

Lemma get_tokenizer_data_hit t c d :
  tokenizer_cache c !! tokenizer_hash_of t = Some d ->
  get_tokenizer_data t c = (inr d, c).
Proof. intros Hd. unfold get_tokenizer_data. by rewrite Hd. Qed.

Lemma get_compiler_hit g c k :
  compiler_cache c !! pretty (tokenizer_hash g) = Some k ->
  get_compiler g c = (inr k, c).
Proof. intros Hk. unfold get_compiler. by rewrite Hk. Qed.

(** *** A call that returns leaves its result in the cache *)

Lemma get_tokenizer_data_cached t c d c' :
  get_tokenizer_data t c = (inr d, c') ->
  tokenizer_cache c' !! tokenizer_hash_of t = Some d.
Proof.
  unfold get_tokenizer_data.
  destruct (tokenizer_cache c !! tokenizer_hash_of t) as [d0|] eqn:E.
  - intros [= <- <-]. exact E.
  - destruct (get_vocab t) as [vocab|]; [|done].
    destruct (fill_vocab _ vocab _) as [e|encoded]; [done|].
    intros [= <- <-]. simpl. apply lookup_insert_eq.
Qed.

Lemma get_compiler_cached g c k c' :
  get_compiler g c = (inr k, c') ->
  compiler_cache c' !! pretty (tokenizer_hash g) = Some k.
Proof.
  unfold get_compiler.
  destruct (compiler_cache c !! pretty (tokenizer_hash g)) as [k0|] eqn:E.
  - intros [= <- <-]. exact E.
  - destruct (tokenizer_data g) as [data|]; [|done].
    intros [= <- <-]. simpl. apply lookup_insert_eq.
Qed.

(** *** What a call can change

    A call writes a cache entry only where there was none, and records an
    event only for a key that missed. *)

Lemma get_tokenizer_data_effect t c :
  let c' := (get_tokenizer_data t c).2 in
  compiler_cache c' = compiler_cache c
  ∧ (forall key d, tokenizer_cache c !! key = Some d -> tokenizer_cache c' !! key = Some d)
  ∧ (ran c' = ran c
     ∨ (tokenizer_cache c !! tokenizer_hash_of t = None
        ∧ ran c' = ran c ++ [ExtractVocab (tokenizer_hash_of t)])).
Proof.
  unfold get_tokenizer_data.
  destruct (tokenizer_cache c !! tokenizer_hash_of t) as [d0|] eqn:E; simpl.
  { split_and!; [done|done|by left]. }
  destruct (get_vocab t) as [vocab|]; simpl.
  2:{ split_and!; [done|done|by right]. }
  destruct (fill_vocab _ vocab _) as [e|encoded]; simpl.
  { split_and!; [done|done|by right]. }
  split_and!; [done| |by right].
  intros key d Hd. rewrite lookup_insert_ne; [done|]. intros <-. congruence.
Qed.

Lemma get_compiler_effect g c :
  let c' := (get_compiler g c).2 in
  tokenizer_cache c' = tokenizer_cache c
  ∧ (forall key k, compiler_cache c !! key = Some k -> compiler_cache c' !! key = Some k)
  ∧ (ran c' = ran c
     ∨ (compiler_cache c !! pretty (tokenizer_hash g) = None
        ∧ ran c' = ran c ++ [BuildCompiler (pretty (tokenizer_hash g))])).
Proof.
  unfold get_compiler.
  destruct (compiler_cache c !! pretty (tokenizer_hash g)) as [k0|] eqn:E; simpl.
  { split_and!; [done|done|by left]. }
  destruct (tokenizer_data g) as [data|]; simpl.
  2:{ split_and!; [done|done|by left]. }
  split_and!; [done| |by right].
  intros key k Hk. rewrite lookup_insert_ne; [done|]. intros <-. congruence.
Qed.

Lemma times_snoc e e' c c' :
  ran c' = ran c ++ [e'] ->
  times e c' = (times e c + (if decide (e' = e) then 1 else 0))%nat.
Proof.
  intros Hr. unfold times. rewrite Hr, filter_app, length_app. f_equal.
  rewrite filter_cons, filter_nil. by destruct (decide (e' = e)).
Qed.

Lemma times_same e c c' : ran c' = ran c -> times e c' = times e c.
Proof. intros Hr. unfold times. by rewrite Hr. Qed.

(** *** Entries stay, and a cached key records nothing more *)

Lemma run_call_tokenizer_entry k c key d :
  tokenizer_cache c !! key = Some d ->
  tokenizer_cache (run_call k c) !! key = Some d
  ∧ times (ExtractVocab key) (run_call k c) = times (ExtractVocab key) c.
Proof.
  intros Hd. destruct k as [t|g]; simpl.
  - destruct (get_tokenizer_data_effect t c) as (_ & Hkeep & [Hr|[Hmiss Hr]]).
    + split; [by apply Hkeep|by apply times_same].
    + split; [by apply Hkeep|]. rewrite (times_snoc _ _ _ _ Hr).
      destruct (decide _) as [[= Heq]|_]; [|lia]. congruence.
  - destruct (get_compiler_effect g c) as (Htc & _ & [Hr|[_ Hr]]).
    + split; [by rewrite Htc|by apply times_same].
    + split; [by rewrite Htc|]. rewrite (times_snoc _ _ _ _ Hr).
      destruct (decide _) as [?|_]; [done|lia].
Qed.

Lemma run_call_compiler_entry k c key v :
  compiler_cache c !! key = Some v ->
  compiler_cache (run_call k c) !! key = Some v
  ∧ times (BuildCompiler key) (run_call k c) = times (BuildCompiler key) c.
Proof.
  intros Hv. destruct k as [t|g]; simpl.
  - destruct (get_tokenizer_data_effect t c) as (Hcc & _ & [Hr|[_ Hr]]).
    + split; [by rewrite Hcc|by apply times_same].
    + split; [by rewrite Hcc|]. rewrite (times_snoc _ _ _ _ Hr).
      destruct (decide _) as [?|_]; [done|lia].
  - destruct (get_compiler_effect g c) as (_ & Hkeep & [Hr|[Hmiss Hr]]).
    + split; [by apply Hkeep|by apply times_same].
    + split; [by apply Hkeep|]. rewrite (times_snoc _ _ _ _ Hr).
      destruct (decide _) as [[= Heq]|_]; [|lia]. congruence.
Qed.

Lemma run_calls_tokenizer_entry ks c key d :
  tokenizer_cache c !! key = Some d ->
  tokenizer_cache (run_calls ks c) !! key = Some d
  ∧ times (ExtractVocab key) (run_calls ks c) = times (ExtractVocab key) c.
Proof.
  revert c. induction ks as [|k ks IH]; intros c Hd; simpl; [done|].
  destruct (run_call_tokenizer_entry k c key d Hd) as [Hd' Ht'].
  destruct (IH _ Hd') as [Hd'' Ht'']. split; [done|congruence].
Qed.

Lemma run_calls_compiler_entry ks c key v :
  compiler_cache c !! key = Some v ->
  compiler_cache (run_calls ks c) !! key = Some v
  ∧ times (BuildCompiler key) (run_calls ks c) = times (BuildCompiler key) c.
Proof.
  revert c. induction ks as [|k ks IH]; intros c Hv; simpl; [done|].
  destruct (run_call_compiler_entry k c key v Hv) as [Hv' Ht'].
  destruct (IH _ Hv') as [Hv'' Ht'']. split; [done|congruence].
Qed.

Lemma get_tokenizer_data_times t c key :
  (times (ExtractVocab key) (get_tokenizer_data t c).2 <= times (ExtractVocab key) c + 1)%nat.
Proof.
  destruct (get_tokenizer_data_effect t c) as (_ & _ & [Hr|[_ Hr]]).
  - rewrite (times_same _ _ _ Hr). lia.
  - rewrite (times_snoc _ _ _ _ Hr). destruct (decide _); lia.
Qed.

Lemma get_compiler_times g c key :
  (times (BuildCompiler key) (get_compiler g c).2 <= times (BuildCompiler key) c + 1)%nat.
Proof.
  destruct (get_compiler_effect g c) as (_ & _ & [Hr|[_ Hr]]).
  - rewrite (times_same _ _ _ Hr). lia.
  - rewrite (times_snoc _ _ _ _ Hr). destruct (decide _); lia.
Qed.

(** C4, amended. Both class-level caches are idempotent per key once a
    call has returned. If a call of [get_tokenizer_data] returns an
    entry, then any later call with a tokenizer of equal hash, after any
    calls to either cache in between, returns that same entry and
    changes nothing, and from before the first call to after the second
    the vocabulary extraction for that key has run at most once.
    Likewise, if a call of [get_compiler] returns a compiler, any later
    call for a configuration with equal [tokenizer_hash] returns the
    same compiler, one being built at most once. *)
Theorem caches_idempotent_per_key :
  (forall (c c1 : Caches) (t1 t2 : Tokenizer) (between : list call) (d : TokenizerData),
     tokenizer_hash_of t1 = tokenizer_hash_of t2 ->
     get_tokenizer_data t1 c = (inr d, c1) ->
     let c2 := run_calls between c1 in
     get_tokenizer_data t2 c2 = (inr d, c2)
     ∧ (times (ExtractVocab (tokenizer_hash_of t1)) (get_tokenizer_data t2 c2).2
        <= times (ExtractVocab (tokenizer_hash_of t1)) c + 1)%nat)
  ∧ (forall (c c1 : Caches) (g1 g2 : GrammarConfig) (between : list call) (k : GrammarCompiler),
       tokenizer_hash g1 = tokenizer_hash g2 ->
       get_compiler g1 c = (inr k, c1) ->
       let c2 := run_calls between c1 in
       get_compiler g2 c2 = (inr k, c2)
       ∧ (times (BuildCompiler (pretty (tokenizer_hash g1))) (get_compiler g2 c2).2
          <= times (BuildCompiler (pretty (tokenizer_hash g1))) c + 1)%nat).
Proof.
  split.
  - intros c c1 t1 t2 between d Hhash Hcall c2.
    pose proof (get_tokenizer_data_cached _ _ _ _ Hcall) as Hd.
    destruct (run_calls_tokenizer_entry between c1 _ d Hd) as [Hd2 Ht2]. fold c2 in Hd2, Ht2.
    assert (get_tokenizer_data t2 c2 = (inr d, c2)) as Hsecond.
    { apply get_tokenizer_data_hit. by rewrite <- Hhash. }
    split; [done|]. rewrite Hsecond. simpl. rewrite Ht2.
    pose proof (get_tokenizer_data_times t1 c (tokenizer_hash_of t1)) as Hle.
    by rewrite Hcall in Hle.
  - intros c c1 g1 g2 between k Hhash Hcall c2.
    pose proof (get_compiler_cached _ _ _ _ Hcall) as Hk.
    destruct (run_calls_compiler_entry between c1 _ k Hk) as [Hk2 Ht2]. fold c2 in Hk2, Ht2.
    assert (get_compiler g2 c2 = (inr k, c2)) as Hsecond.
    { apply get_compiler_hit. by rewrite <- Hhash. }
    split; [done|]. rewrite Hsecond. simpl. rewrite Ht2.
    pose proof (get_compiler_times g1 c (pretty (tokenizer_hash g1))) as Hle.
    by rewrite Hcall in Hle.
Qed.

(** Two tokenizers with the same hash and different vocabularies, and a
    third with another hash. *)
Definition byte_info (n : Z) : TokenizerInfo :=
  {| info_add_prefix_space := false; info_vocab_type := BYTE_LEVEL; info_vocab_size := n |}.

Definition tokenizer_a : Tokenizer :=
  {| tokenizer_hash_of := 42; from_huggingface := byte_info 3;
     get_vocab := Some [("a", 0); ("b", 1); ("c", 2); ("d", 3)];
     eos_token_id := Some 2; is_mistral := false |}.

Definition tokenizer_b : Tokenizer :=
  {| tokenizer_hash_of := 42; from_huggingface := byte_info 2;
     get_vocab := Some [("x", 0); ("y", 1)];
     eos_token_id := None; is_mistral := true |}.

Definition tokenizer_c : Tokenizer :=
  {| tokenizer_hash_of := 43; from_huggingface := byte_info 2;
     get_vocab := Some [("x", 0); ("y", -1)];
     eos_token_id := None; is_mistral := true |}.

Definition data_a : TokenizerData :=
  {| encoded_vocab := ["a"; "b"; "c"]; stop_token_ids := Some [2]; vocab_size := 3;
     vocab_type := Some BYTE_LEVEL; add_prefix_space := false |}.

Example get_tokenizer_data_first_call :
  (get_tokenizer_data tokenizer_a initial).1 = inr data_a
  ∧ (get_tokenizer_data tokenizer_c initial).1
    = inr {| encoded_vocab := ["x"; "y"]; stop_token_ids := None; vocab_size := 2;
             vocab_type := Some BYTE_FALLBACK; add_prefix_space := true |}.
Proof. split; reflexivity. Qed.

Lemma caches_idempotent_per_key_witness :
  get_tokenizer_data tokenizer_b
    (run_calls [CallTokenizerData tokenizer_c] (get_tokenizer_data tokenizer_a initial).2)
  = (inr data_a,
     run_calls [CallTokenizerData tokenizer_c] (get_tokenizer_data tokenizer_a initial).2).
Proof.
  refine (proj1 (proj1 caches_idempotent_per_key initial
                   (get_tokenizer_data tokenizer_a initial).2
                   tokenizer_a tokenizer_b [CallTokenizerData tokenizer_c] data_a _ _));
    reflexivity.
Defined.

(** A tokenizer whose vocabulary gives a token the id -3, with a
    vocabulary size of 2: the assignment [encoded_vocab[-3] = token]
    raises [IndexError]. *)
Definition tokenizer_e : Tokenizer :=
  {| tokenizer_hash_of := 44; from_huggingface := byte_info 2;
     get_vocab := Some [("x", 0); ("y", -3)];
     eos_token_id := None; is_mistral := false |}.

(** What C4 says of two calls in a row, from the caches [c]: both return
    the same entry, and the extraction for the key has run at most once
    more than before. *)
Definition extracts_at_most_once (c : Caches) (t1 t2 : Tokenizer) : Prop :=
  let r1 := get_tokenizer_data t1 c in
  let r2 := get_tokenizer_data t2 r1.2 in
  (exists d, r1.1 = inr d ∧ r2.1 = inr d)
  ∧ (times (ExtractVocab (tokenizer_hash_of t1)) r2.2
     <= times (ExtractVocab (tokenizer_hash_of t1)) c + 1)%nat.

(** C4, as stated, fails: a call that raises caches nothing, so two
    calls for the same tokenizer both run the extraction, and neither
    returns an entry. *)
Lemma failed_extraction_reruns : ¬ extracts_at_most_once initial tokenizer_e tokenizer_e.
Proof.
  intros [_ Htimes]. vm_compute in Htimes. lia.
Qed.

Example failed_extraction_run :
  (get_tokenizer_data tokenizer_e initial).1 = inl IndexError
  ∧ (get_tokenizer_data tokenizer_e (get_tokenizer_data tokenizer_e initial).2).1
    = inl IndexError
  ∧ tokenizer_cache (run_calls [CallTokenizerData tokenizer_e; CallTokenizerData tokenizer_e;
                                CallTokenizerData tokenizer_e] initial) = ∅
  ∧ times (ExtractVocab 44)
      (run_calls [CallTokenizerData tokenizer_e; CallTokenizerData tokenizer_e;
                  CallTokenizerData tokenizer_e] initial) = 3%nat.
Proof. split_and!; reflexivity. Qed.

(** A configuration without tokenizer data fails the assertion of
    [get_compiler]; a second one with the same hash and with data gets a
    compiler. *)
Example get_compiler_without_data :
  let g := {| tokenizer_hash := 42; config_vocab_size := 3; json_str := None;
              grammar_str := Some "root ::= x"; json_object := None;
              any_whitespace := true; max_threads := 8; tokenizer_data := None |} in
  let g' := {| tokenizer_hash := 42; config_vocab_size := 3; json_str := None;
               grammar_str := Some "root ::= x"; json_object := None;
               any_whitespace := true; max_threads := 8; tokenizer_data := Some data_a |} in
  get_compiler g initial = (inl AssertionError, initial)
  ∧ exists k, (get_compiler g' (get_compiler g initial).2).1 = inr k.
Proof. split; [reflexivity|by eexists]. Qed.

End XGrammarFacts.

(** ** The single-GPU executor *)

Module ExecutorFacts.
Import Executor.

(** The calls an effect list makes on the worker, the log records left
    out. *)
Definition is_worker_call (e : effect) : bool :=
  match e with
  | LogBlocks _ _ | LogMaxConcurrency _ _ => false
  | _ => true
  end.

Definition worker_calls (l : list effect) : list effect := List.filter is_worker_call l.

(** Two executors with the same configurations. *)
Definition same_configs {W : Type} (ex ex' : GPUExecutor W) : Prop :=
  parallel_config ex' = parallel_config ex
  ∧ scheduler_config ex' = scheduler_config ex
  ∧ cache_config ex' = cache_config ex
  ∧ model_config ex' = model_config ex.

Lemma true_div_defined (a b : Z) :
  b ≠ 0 -> Z.abs a < float_overflow_bound * Z.abs b -> exists q, true_div a b = inr q.
Proof.
  intros Hb Ha. unfold true_div.
  destruct (b =? 0) eqn:E0; [apply Z.eqb_eq in E0; done|].
  destruct (float_overflow_bound * Z.abs b <=? Z.abs a) eqn:E1.
  - apply Z.leb_le in E1. lia.
  - by eexists.
Qed.

Section Methods.
Context {W : Type} `{WorkerBase W}.

(** What C7 says of [initialize_cache]: the worker's [initialize_cache]
    runs on the two counts, and its outcome is the executor's. *)
Definition forwards_counts (num_gpu_blocks num_cpu_blocks : Z) (ex : GPUExecutor W) : Prop :=
  forall w, driver_worker ex = Some w ->
    let r := initialize_cache num_gpu_blocks num_cpu_blocks ex in
    r.1.1 = (worker_initialize_cache num_gpu_blocks num_cpu_blocks w).1
    ∧ driver_worker r.1.2 = Some (worker_initialize_cache num_gpu_blocks num_cpu_blocks w).2
    ∧ same_configs ex r.1.2
    ∧ worker_calls r.2 = [InitializeCache num_gpu_blocks num_cpu_blocks].

Lemma initialize_cache_forwards (g c : Z) (ex : GPUExecutor W) :
  max_model_len (model_config ex) ≠ 0 ->
  Z.abs (g * block_size (cache_config ex))
    < float_overflow_bound * Z.abs (max_model_len (model_config ex)) ->
  forwards_counts g c ex.
Proof.
  intros Hlen Hfin w Hw. unfold initialize_cache.
  destruct (true_div_defined _ _ Hlen Hfin) as [q ->]. rewrite Hw.
  destruct (worker_initialize_cache g c w) as [e w'] eqn:E. simpl.
  split_and!; try done.
Qed.

(** C7, amended. On an initialised executor,
    [determine_num_available_blocks] returns exactly what the worker's
    method returns and changes none of the configurations.
    [initialize_cache] first computes the concurrency it logs,
    [num_gpu_blocks * block_size / max_model_len]; when that quotient
    exists ([max_model_len] not 0, and the quotient within the range of a
    float) it calls the worker's [initialize_cache] with both counts as
    given, and nothing else of the executor changes. With [max_model_len]
    0 it raises [ZeroDivisionError] and the worker is not called. *)
Theorem executor_forwards_to_worker (ex : GPUExecutor W) (w : W) (g c : Z) :
  driver_worker ex = Some w ->
  (let d := determine_num_available_blocks ex in
   d.1.1 = (worker_determine_num_available_blocks w).1
   ∧ driver_worker d.1.2 = Some (worker_determine_num_available_blocks w).2
   ∧ same_configs ex d.1.2
   ∧ worker_calls d.2 = [DetermineNumAvailableBlocks])
  ∧ (max_model_len (model_config ex) ≠ 0 ->
     Z.abs (g * block_size (cache_config ex))
       < float_overflow_bound * Z.abs (max_model_len (model_config ex)) ->
     forwards_counts g c ex)
  ∧ (max_model_len (model_config ex) = 0 ->
     initialize_cache g c ex = (Some ZeroDivisionError, ex, [LogBlocks g c])).
Proof.
  intros Hw. split_and!.
  - unfold determine_num_available_blocks. rewrite Hw.
    destruct (worker_determine_num_available_blocks w) as [r w'] eqn:E. simpl.
    split_and!; try done.
  - apply initialize_cache_forwards.
  - intros Hz. unfold initialize_cache, true_div. rewrite Hz. reflexivity.
Qed.

End Methods.

(** A worker that records the counts it is initialised with and reports
    100 GPU and 20 CPU blocks. *)
Definition recording_worker : WorkerBase (list (Z * Z)) :=
  {| _create_worker := fun _ _ _ _ => inr [];
     init_device := fun w => (None, w);
     load_model := fun w => (None, w);
     worker_determine_num_available_blocks := fun w => (inr (100, 20), w);
     worker_initialize_cache := fun g c w => (None, w ++ [(g, c)]) |}.

Definition executor_with (ws len : Z) (w : option (list (Z * Z))) : GPUExecutor (list (Z * Z)) :=
  {| parallel_config := {| world_size := ws; tensor_parallel_size := ws |};
     scheduler_config := {| is_multi_step := false |};
     cache_config := {| block_size := 16 |};
     model_config := {| max_model_len := len |};
     driver_worker := w |}.

(** C7, as stated, fails: with [max_model_len] 0 the division for the log
    record raises before the worker is reached, and the worker has
    recorded no counts. *)
Lemma initialize_cache_zero_length :
  ¬ forwards_counts (H := recording_worker) 10 5 (executor_with 1 0 (Some [])).
Proof.
  intros Hf. destruct (Hf [] eq_refl) as (Hraise & _). vm_compute in Hraise. discriminate.
Qed.

Example initialize_cache_zero_length_run :
  initialize_cache (H := recording_worker) 10 5 (executor_with 1 0 (Some []))
  = (Some ZeroDivisionError, executor_with 1 0 (Some []), [LogBlocks 10 5]).
Proof. reflexivity. Qed.

Lemma executor_forwards_to_worker_witness :
  driver_worker (executor_with 1 2048 (Some [])) = Some []
  ∧ (determine_num_available_blocks (H := recording_worker) (executor_with 1 2048 (Some []))).1.1
    = inr (100, 20)
  ∧ forwards_counts (H := recording_worker) 10 5 (executor_with 1 2048 (Some [])).
Proof.
  pose proof (executor_forwards_to_worker (H := recording_worker)
                (executor_with 1 2048 (Some [])) [] 10 5 eq_refl) as ((Hd & _) & Hf & _).
  refine (conj eq_refl (conj Hd (Hf _ _))).
  - simpl. lia.
  - vm_compute. reflexivity.
Defined.

Example initialize_cache_forwarded_run :
  (initialize_cache (H := recording_worker) 10 5 (executor_with 1 2048 (Some []))).1
  = (None, executor_with 1 2048 (Some [(10, 5)])).
Proof. reflexivity. Qed.


Example init_executor_run :
  _init_executor (H := recording_worker) (executor_with 1 2048 None)
  = (None, executor_with 1 2048 (Some []), [CreateWorker; InitDevice; LoadModel]).
Proof. reflexivity. Qed.

End ExecutorFacts.

(** * Further properties of the modelled code *)

(** ** Reading and writing list positions *)

Module PyListMore.
Import PyList.

Section Lists.
Context {A : Type}.

Lemma norm_index_Some (len key : Z) (i : nat) :
  norm_index len key = Some i
  <-> - len <= key < len ∧ i = Z.to_nat (if key <? 0 then key + len else key).
Proof.
  unfold norm_index.
  destruct (key <? 0) eqn:Hneg;
    [apply Z.ltb_lt in Hneg|apply Z.ltb_ge in Hneg].
  - destruct (0 <=? key + len) eqn:H1; destruct (key + len <? len) eqn:H2; simpl;
      try apply Z.leb_le in H1; try apply Z.leb_gt in H1;
      try apply Z.ltb_lt in H2; try apply Z.ltb_ge in H2;
      split; try (intros [= <-]; split; [lia|done]); try (intros [? ->]; by f_equal);
      try (intros [? ?]; lia); try done.
  - destruct (0 <=? key) eqn:H1; destruct (key <? len) eqn:H2; simpl;
      try apply Z.leb_le in H1; try apply Z.leb_gt in H1;
      try apply Z.ltb_lt in H2; try apply Z.ltb_ge in H2;
      split; try (intros [= <-]; split; [lia|done]); try (intros [? ->]; by f_equal);
      try (intros [? ?]; lia); try done.
Qed.

Lemma norm_index_None (len key : Z) :
  norm_index len key = None <-> key < - len ∨ len <= key.
Proof.
  destruct (norm_index len key) as [i|] eqn:E.
  - apply norm_index_Some in E as [Hr _]. split; [done|lia].
  - split; [|done]. intros _.
    destruct (decide (- len <= key < len)) as [Hr|Hr]; [|lia].
    assert (norm_index len key = Some (Z.to_nat (if key <? 0 then key + len else key))) as E'
      by (by apply norm_index_Some).
    congruence.
Qed.

Lemma norm_index_lt (len key : Z) (i : nat) :
  norm_index len key = Some i -> (Z.of_nat i < len).
Proof.
  intros [Hr ->]%norm_index_Some. destruct (key <? 0) eqn:E;
    [apply Z.ltb_lt in E|apply Z.ltb_ge in E]; lia.
Qed.

Lemma setitem_index_raises (l : list A) (key : Z) (x : A) :
  setitem_index l key x = inl IndexError
  <-> key < - Z.of_nat (length l) ∨ Z.of_nat (length l) <= key.
Proof.
  unfold setitem_index. rewrite <- norm_index_None.
  destruct (norm_index _ key); split; done.
Qed.

Lemma setitem_index_returns (l l' : list A) (key : Z) (x : A) :
  setitem_index l key x = inr l' ->
  length l' = length l
  ∧ getitem_index l' key = inr x
  ∧ forall key' : Z,
      norm_index (Z.of_nat (length l)) key' ≠ norm_index (Z.of_nat (length l)) key ->
      getitem_index l' key' = getitem_index l key'.
Proof.
  unfold setitem_index, getitem_index.
  destruct (norm_index (Z.of_nat (length l)) key) as [i|] eqn:E; [|done].
  intros [= <-]. rewrite length_insert, E.
  pose proof (norm_index_lt _ _ _ E) as Hlt.
  split_and!; [done| |].
  - rewrite list_lookup_insert_eq; [done|lia].
  - intros key' Hne. destruct (norm_index _ key') as [j|]; [|done].
    rewrite list_lookup_insert_ne; [done|]. intros <-. done.
Qed.

Lemma assign_strided_length (v l : list A) (cur st : Z) :
  length (assign_strided l cur st v) = length l.
Proof.
  revert l cur. induction v as [|x v IH]; intros l cur; simpl; [done|].
  by rewrite IH, length_insert.
Qed.

Lemma slice_whole (len : Z) :
  0 <= len -> slice_indices len (Slice None None None) = inr (0, len, 1).
Proof. intros Hlen. reflexivity. Qed.

Lemma setitem_slice_whole (l v : list A) :
  setitem_slice l (Slice None None None) v = inr v.
Proof.
  unfold setitem_slice. rewrite slice_whole by lia. simpl.
  rewrite Z.max_l by lia. rewrite Nat2Z.id, drop_all, app_nil_r. reflexivity.
Qed.

Lemma adjust_bound_range (len st dflt : Z) (b : option Z) :
  0 < st -> 0 <= len -> 0 <= dflt <= len -> 0 <= adjust_bound len st dflt b <= len.
Proof.
  intros Hst Hlen Hd. unfold adjust_bound. destruct b as [v|]; [|done].
  destruct (st <? 0) eqn:Es; [apply Z.ltb_lt in Es; lia|].
  destruct (v <? 0) eqn:E1; [apply Z.ltb_lt in E1|apply Z.ltb_ge in E1].
  - destruct (v + len <? 0) eqn:E2; [lia|apply Z.ltb_ge in E2; lia].
  - destruct (len <=? v) eqn:E3; [lia|apply Z.leb_gt in E3; lia].
Qed.

(** A slice assignment with step 1 (or no step) never raises; the list
    grows by the number of new elements less the number replaced. *)
Lemma setitem_slice_step1 (l v : list A) (s : slice) :
  step s = None ∨ step s = Some 1 ->
  exists lo hi l',
    slice_indices (Z.of_nat (length l)) s = inr (lo, hi, 1)
    ∧ 0 <= lo <= Z.of_nat (length l) ∧ 0 <= hi <= Z.of_nat (length l)
    ∧ setitem_slice l s v = inr l'
    ∧ l' = take (Z.to_nat lo) l ++ v ++ drop (Z.to_nat (Z.max hi lo)) l
    ∧ Z.of_nat (length l') = Z.of_nat (length l) - (Z.max hi lo - lo) + Z.of_nat (length v).
Proof.
  intros Hstep. unfold setitem_slice, slice_indices.
  assert (default 1 (step s) = 1) as -> by (by destruct Hstep as [-> | ->]).
  simpl.
  set (len := Z.of_nat (length l)).
  pose proof (adjust_bound_range len 1 0 (start s) ltac:(lia) ltac:(lia) ltac:(lia)) as Hlo.
  pose proof (adjust_bound_range len 1 len (stop s) ltac:(lia) ltac:(lia) ltac:(lia)) as Hhi.
  eexists _, _, _. split_and!; [reflexivity|apply Hlo|apply Hlo|apply Hhi|apply Hhi
                              |reflexivity|reflexivity|].
  rewrite !length_app, length_take, length_drop. unfold len in *. lia.
Qed.

(** A slice assignment with any other step raises exactly when the step
    is 0 or the number of new elements is not the number of positions
    selected; when it returns the length is unchanged. *)
Lemma setitem_slice_extended (l v : list A) (s : slice) (st : Z) :
  step s = Some st -> st ≠ 1 ->
  match setitem_slice l s v with
  | inl e =>
      e = ValueError
      ∧ (st = 0
         ∨ exists lo hi, slice_indices (Z.of_nat (length l)) s = inr (lo, hi, st)
                         ∧ Z.of_nat (length v) ≠ slice_length lo hi st)
  | inr l' =>
      length l' = length l
      ∧ exists lo hi, slice_indices (Z.of_nat (length l)) s = inr (lo, hi, st)
                      ∧ Z.of_nat (length v) = slice_length lo hi st
  end.
Proof.
  intros Hstep Hne. unfold setitem_slice, slice_indices. rewrite Hstep. simpl.
  destruct (st =? 0) eqn:E0; [apply Z.eqb_eq in E0; split; [done|by left]|].
  destruct (st =? 1) eqn:E1; [apply Z.eqb_eq in E1; done|].
  destruct (Z.of_nat (length v) =? slice_length _ _ st) eqn:El.
  - apply Z.eqb_eq in El. split; [apply assign_strided_length|]. by eexists _, _.
  - apply Z.eqb_neq in El. split; [done|]. right. by eexists _, _.
Qed.
End Lists.

(** How the outcome of an assignment depends on the lengths only: two
    lists, of blocks and of numbers say, given the same key. *)
Section Shapes.
Context {A B : Type}.

Lemma setitem_index_same_shape (l : list A) (l' : list B) (key : Z) (x : A) (y : B) (r : list A) :
  (length l <= length l')%nat -> setitem_index l key x = inr r ->
  length r = length l
  ∧ exists r', setitem_index l' key y = inr r' ∧ length r' = length l'
               ∧ getitem_index r' key = inr y.
Proof.
  intros Hle E.
  assert (length r = length l) as Hr.
  { unfold setitem_index in E. destruct (norm_index _ key); [|done].
    injection E as <-. by rewrite length_insert. }
  split; [done|].
  destruct (setitem_index l' key y) as [e|r'] eqn:E'.
  - assert (e = IndexError) as ->.
    { unfold setitem_index in E'. destruct (norm_index _ key); congruence. }
    apply setitem_index_raises in E'.
    assert (setitem_index l key x = inl IndexError) as E2
      by (apply setitem_index_raises; lia).
    congruence.
  - exists r'. destruct (setitem_index_returns _ _ _ _ E') as (Hlen & Hget & _). done.
Qed.



(** With lists of equal lengths and values of equal lengths, both
    assignments raise the same exception or both return, lists of equal
    lengths. *)
Lemma setitem_slice_same_shape (l v : list A) (l' v' : list B) (s : slice) :
  length l = length l' -> length v = length v' ->
  match setitem_slice l s v, setitem_slice l' s v' with
  | inl e, inl e' => e = e'
  | inr r, inr r' => length r = length r'
  | _, _ => False
  end.
Proof.
  intros Hl Hv. unfold setitem_slice. rewrite <- Hl, <- Hv.
  destruct (slice_indices _ s) as [e|[[lo hi] st]]; [done|].
  destruct (st =? 1).
  - rewrite !length_app, !length_take, !length_drop. lia.
  - destruct (_ =? _); [|done]. by rewrite !assign_strided_length.
Qed.


End Shapes.


(** A list assigned to itself through an extended slice keeps its
    length, so a second list as long takes any value as long. *)
Lemma setitem_slice_own_second {A B} (l r : list A) (l' v' : list B) (s : slice) :
  length l = length l' -> setitem_slice l s l = inr r -> length v' = length r ->
  exists r', setitem_slice l' s v' = inr r'.
Proof.
  intros Hl. unfold setitem_slice. rewrite <- Hl.
  destruct (slice_indices (Z.of_nat (length l)) s) as [e|[[lo hi] st]] eqn:E; [done|].
  destruct (st =? 1); [by eexists|].
  destruct (Z.of_nat (length l) =? slice_length lo hi st) eqn:El; [|done].
  intros [= <-] Hv. rewrite Hv, assign_strided_length, El. by eexists.
Qed.

End PyListMore.

(** ** Block tables: what the methods write and what they return *)

Module BlockMore.
Import Block BlockFacts.

Lemma list_of_store_table t T h : list_of t (store_table t T h) = _blocks T.
Proof. unfold list_of, store_table. simpl. by rewrite lookup_insert_eq. Qed.

Lemma ids_store_table t T h : ids t (store_table t T h) = _block_ids T.
Proof. unfold ids, store_table. simpl. by rewrite lookup_insert_eq. Qed.

Lemma store_table_same t T h : tables h !! t = Some T -> store_table t T h = h.
Proof.
  intros HT. destruct h as [bs ts]. unfold store_table. simpl in *.
  f_equal. by apply insert_id.
Qed.

Lemma store_table_other t t' T h :
  t ≠ t' -> tables (store_table t T h) !! t' = tables h !! t'.
Proof. intros Hne. unfold store_table. simpl. by rewrite lookup_insert_ne. Qed.

(** *** What every store keeps: [ids()] is never shorter than [list()] *)



Lemma list_of_lookup self T h : tables h !! self = Some T -> list_of self h = _blocks T.
Proof. intros HT. unfold list_of. by rewrite HT. Qed.

Lemma ids_lookup self T h : tables h !! self = Some T -> ids self h = _block_ids T.
Proof. intros HT. unfold ids. by rewrite HT. Qed.






(** X1. On a table whose [ids()] is as long as its [list()], a
    [__setitem__] that raises has written nothing: either it returns, or
    the store afterwards is the store before. This holds for an index
    with a block, a slice with a list, and a slice with the list of a
    table, the table's own included. *)
Theorem setitem_raise_writes_nothing (h : Heap) (self : loc) (a : setitem_args) :
  length (ids self h) = length (list_of self h) ->
  (setitem self a h).1 = None ∨ (setitem self a h).2 = h.
Proof.
  intros Hlen. unfold setitem.
  destruct (tables h !! self) as [T|] eqn:HT; [|by left].
  rewrite (list_of_lookup self T h HT), (ids_lookup self T h HT) in Hlen.
  pose proof (store_table_same self T h HT) as Hsame.
  destruct a as [key b|key bl|key t]; simpl.
  - destruct (PyList.setitem_index (_blocks T) key b) as [e|l'] eqn:E; [by right|].
    destruct (PyListMore.setitem_index_same_shape (_blocks T) (_block_ids T) key b
                (number_at (blocks h) b) l' ltac:(lia) E) as (_ & il & -> & _).
    by left.
  - pose proof (PyListMore.setitem_slice_same_shape (_blocks T) bl (_block_ids T)
                  (number_at (blocks h) <$> bl) key (eq_sym Hlen)
                  (eq_sym (length_fmap _ _))) as Hshape.
    destruct (PyList.setitem_slice (_blocks T) key bl) as [e|l'] eqn:E; [by right|].
    destruct (PyList.setitem_slice (_block_ids T) key _) as [e|il]; [done|by left].
  - destruct (decide (t = self)) as [->|Hne].
    + rewrite list_of_store_table.
      destruct (PyList.setitem_slice (_blocks T) key (_blocks T)) as [e|l'] eqn:E;
        [by right|].
      rewrite list_of_store_table. simpl.
      destruct (PyListMore.setitem_slice_own_second (_blocks T) l' (_block_ids T)
                  (number_at (blocks h) <$> l') key (eq_sym Hlen) E (length_fmap _ _))
        as [il ->].
      by left.
    + rewrite !list_of_other by done.
      pose proof (PyListMore.setitem_slice_same_shape (_blocks T) (list_of t h)
                    (_block_ids T) (number_at (blocks h) <$> list_of t h) key
                    (eq_sym Hlen) (eq_sym (length_fmap _ _))) as Hshape.
      destruct (PyList.setitem_slice (_blocks T) key (list_of t h)) as [e|l'] eqn:E;
        [by right|].
      rewrite list_of_other by done.
      destruct (PyList.setitem_slice (_block_ids T) key _) as [e|il]; [done|by left].
Qed.

Lemma setitem_raise_writes_nothing_witness :
  length (ids 0%nat parent_heap) = length (list_of 0%nat parent_heap)
  ∧ (setitem 0%nat (AtIndex 5 0%nat) parent_heap).1 = Some IndexError
  ∧ (setitem 0%nat (AtIndex 5 0%nat) parent_heap).2 = parent_heap.
Proof.
  assert (length (ids 0%nat parent_heap) = length (list_of 0%nat parent_heap)) as Hlen
    by reflexivity.
  assert ((setitem 0%nat (AtIndex 5 0%nat) parent_heap).1 = Some IndexError) as Hr
    by reflexivity.
  destruct (setitem_raise_writes_nothing parent_heap 0%nat (AtIndex 5 0%nat) Hlen)
    as [Hnone|Hsame]; [congruence|].
  exact (conj Hlen (conj Hr Hsame)).
Defined.

(** Where [ids()] has got longer than [list()] the second assignment can
    raise after the first has written: after [t[0:1] = t.list()] on
    three blocks, [t[::2] = [b0, b0, b0]] fits the five blocks and not
    the seven numbers. *)
Example setitem_raises_after_write :
  let h := run own_list_program empty_heap in
  let r := setitem 0%nat (AtSlice (PyList.Slice None None (Some 2)) [0%nat; 0%nat; 0%nat]) h in
  r.1 = Some ValueError
  ∧ list_of 0%nat h = [0%nat; 1%nat; 2%nat; 1%nat; 2%nat]
  ∧ list_of 0%nat r.2 = [0%nat; 1%nat; 0%nat; 1%nat; 0%nat]
  ∧ ids 0%nat r.2 = ids 0%nat h.
Proof. vm_compute. split_and!; reflexivity. Qed.

(** X2. The methods of a table write that table only: whatever another
    table [t] holds it still holds after [append], [__setitem__] or
    [reset] on [self], after a [copy] of either and after the construction
    of a new table; and none of them writes to a block. *)
Theorem table_methods_write_self_only (h : Heap) (self t block : loc) (T : BlockTable)
    (a : setitem_args) (bl : option (list loc)) :
  tables h !! t = Some T -> t ≠ self ->
  (tables (append self block h) !! t = Some T ∧ blocks (append self block h) = blocks h)
  ∧ (tables (setitem self a h).2 !! t = Some T ∧ blocks (setitem self a h).2 = blocks h)
  ∧ (tables (reset self h) !! t = Some T ∧ blocks (reset self h) = blocks h)
  ∧ (tables (copy self h).2 !! t = Some T ∧ tables (copy t h).2 !! t = Some T)
  ∧ (tables (BlockTable_new bl h).2 !! t = Some T
     ∧ blocks (BlockTable_new bl h).2 = blocks h).
Proof.
  intros HT Hne.
  assert (fresh_table h ≠ t) as Hfresh.
  { intros E. pose proof (fresh_table_unused h) as Hf. rewrite E in Hf. congruence. }
  assert (forall T', tables (store_table self T' h) !! t = Some T) as Hself.
  { intros T'. by rewrite store_table_other. }
  assert (forall T', tables (store_table (fresh_table h) T' h) !! t = Some T) as Hnew.
  { intros T'. by rewrite store_table_other. }
  split_and!.
  - unfold append, on_table. destruct (tables h !! self); [apply Hself|done].
  - unfold append, on_table. by destruct (tables h !! self).
  - unfold setitem. destruct (tables h !! self); [|done].
    destruct (setitem_fields _ _ _ a). apply Hself.
  - unfold setitem. destruct (tables h !! self); [|done]. by destruct (setitem_fields _ _ _ a).
  - unfold reset, on_table. destruct (tables h !! self); [apply Hself|done].
  - unfold reset, on_table. by destruct (tables h !! self).
  - unfold copy, BlockTable_new. destruct (tables h !! self); apply Hnew.
  - unfold copy, BlockTable_new. rewrite HT. apply Hnew.
  - apply Hnew.
  - done.
Qed.

Lemma table_methods_write_self_only_witness :
  tables parent_heap !! 0%nat = Some parent_table
  ∧ tables (reset 1%nat (copy 0%nat parent_heap).2) !! 0%nat = Some parent_table.
Proof.
  assert (tables (copy 0%nat parent_heap).2 !! 0%nat = Some parent_table) as HT by reflexivity.
  pose proof (table_methods_write_self_only (copy 0%nat parent_heap).2 1%nat 0%nat 0%nat
                parent_table (AtIndex 0 0%nat) None HT ltac:(lia)) as (_ & _ & [Hr _] & _).
  exact (conj eq_refl Hr).
Defined.



Lemma setitem_slice_value (h : Heap) (self : loc) (T : BlockTable) (s : PyList.slice)
    (bl l' : list loc) :
  tables h !! self = Some T -> mirrors (blocks h) T ->
  PyList.setitem_slice (_blocks T) s bl = inr l' ->
  setitem self (AtSlice s bl) h
  = (None, store_table self {| _blocks := l'; _block_ids := number_at (blocks h) <$> l' |} h).
Proof.
  intros HT Hm E. unfold setitem. rewrite HT. simpl.
  by rewrite E, Hm, PyListFacts.setitem_slice_fmap, E.
Qed.

(** X4. Slice assignment with step 1. On a table whose [ids()] mirrors
    its [list()], [t[start:stop] = blocks] (no step, or step 1) with a
    list of blocks other than the table's own never raises: the blocks
    from the clamped [start] up to [stop] are replaced by the new ones,
    whatever their number, [ids()] follows, and the length changes by
    the difference. In particular [t[:] = blocks] makes [list()] equal
    to [blocks]. *)
Theorem setitem_slice_splices (h : Heap) (self : loc) (s : PyList.slice) (bl : list loc) :
  is_table h self = true ->
  ids self h = number_at (blocks h) <$> list_of self h ->
  PyList.step s = None ∨ PyList.step s = Some 1 ->
  let r := setitem self (AtSlice s bl) h in
  r.1 = None
  ∧ (exists lo hi,
       PyList.slice_indices (len self h) s = inr (lo, hi, 1)
       ∧ 0 <= lo <= len self h ∧ 0 <= hi <= len self h
       ∧ list_of self r.2
         = take (Z.to_nat lo) (list_of self h) ++ bl
           ++ drop (Z.to_nat (Z.max hi lo)) (list_of self h)
       ∧ len self r.2 = len self h - (Z.max hi lo - lo) + Z.of_nat (length bl))
  ∧ ids self r.2 = number_at (blocks h) <$> list_of self r.2
  ∧ (PyList.start s = None -> PyList.stop s = None -> list_of self r.2 = bl).
Proof.
  intros [T HT]%is_table_true Hm Hstep r.
  assert (list_of self h = _blocks T) as Hlist by (by apply list_of_lookup).
  rewrite (ids_lookup self T h HT), Hlist in Hm.
  destruct (PyListMore.setitem_slice_step1 (_blocks T) bl s Hstep)
    as (lo & hi & l' & Hidx & Hlo & Hhi & Hset & Hl' & Hlen).
  unfold r. rewrite (setitem_slice_value h self T s bl l' HT Hm Hset). simpl.
  unfold len. rewrite list_of_store_table, ids_store_table, Hlist. simpl.
  split_and!; [done| |done|].
  - exists lo, hi. split_and!; try done; try lia.
  - intros Hs He. destruct s as [st sp sk]. simpl in *. subst st sp.
    destruct Hstep as [-> | ->].
    + rewrite PyListMore.setitem_slice_whole in Hset. congruence.
    + unfold PyList.setitem_slice, PyList.slice_indices in Hset. simpl in Hset.
      rewrite Z.max_l in Hset by lia. rewrite Nat2Z.id, drop_all, app_nil_r in Hset.
      simpl in Hset. congruence.
Qed.

Lemma setitem_slice_splices_witness :
  is_table (run sample_program empty_heap) 1%nat = true
  ∧ ids 1%nat (run sample_program empty_heap)
    = number_at (blocks (run sample_program empty_heap))
        <$> list_of 1%nat (run sample_program empty_heap)
  ∧ list_of 1%nat
      (setitem 1%nat (AtSlice (PyList.Slice None None None) [0%nat])
         (run sample_program empty_heap)).2
    = [0%nat].
Proof.
  assert (is_table (run sample_program empty_heap) 1%nat = true) as Ht
    by (vm_compute; reflexivity).
  assert (ids 1%nat (run sample_program empty_heap)
          = number_at (blocks (run sample_program empty_heap))
              <$> list_of 1%nat (run sample_program empty_heap)) as Hm
    by (vm_compute; reflexivity).
  pose proof (setitem_slice_splices (run sample_program empty_heap) 1%nat
                (PyList.Slice None None None) [0%nat] Ht Hm (or_introl eq_refl))
    as (_ & _ & _ & Hall).
  exact (conj Ht (conj Hm (Hall eq_refl eq_refl))).
Defined.

(** X5. Slice assignment with another step. On a table whose [ids()] is
    as long as its [list()], [t[start:stop:step] = blocks] with a step
    other than 1 and a list of blocks other than the table's own raises
    [ValueError], and nothing else, exactly when the step is 0 or the
    number of new blocks differs from the number of positions selected;
    the lengths of [list()] and [ids()] are the same afterwards either
    way. *)
Theorem setitem_slice_strided (h : Heap) (self : loc) (s : PyList.slice)
    (bl : list loc) (st : Z) :
  is_table h self = true ->
  length (ids self h) = length (list_of self h) ->
  PyList.step s = Some st -> st ≠ 1 ->
  let r := setitem self (AtSlice s bl) h in
  (r.1 = None ∨ r.1 = Some ValueError)
  ∧ (r.1 = Some ValueError
     <-> st = 0
         ∨ exists lo hi, PyList.slice_indices (len self h) s = inr (lo, hi, st)
                         ∧ Z.of_nat (length bl) ≠ PyList.slice_length lo hi st)
  ∧ len self r.2 = len self h
  ∧ length (ids self r.2) = length (ids self h).
Proof.
  intros [T HT]%is_table_true Hlen Hstep Hne r.
  assert (list_of self h = _blocks T) as Hlist by (by apply list_of_lookup).
  assert (ids self h = _block_ids T) as Hids by (by apply ids_lookup).
  rewrite Hlist, Hids in Hlen.
  pose proof (PyListMore.setitem_slice_extended (_blocks T) bl s st Hstep Hne) as Hext.
  pose proof (PyListMore.setitem_slice_same_shape (_blocks T) bl (_block_ids T)
                (number_at (blocks h) <$> bl) s (eq_sym Hlen)
                (eq_sym (length_fmap _ _))) as Hshape.
  unfold len. rewrite Hlist, Hids.
  destruct (PyList.setitem_slice (_blocks T) s bl) as [e|l'] eqn:E.
  - destruct Hext as [-> Hwhy].
    assert (r = (Some ValueError, store_table self T h)) as ->.
    { unfold r, setitem. rewrite HT. simpl. by rewrite E. }
    simpl. rewrite list_of_store_table, ids_store_table.
    split_and!; [by right| |done|done].
    split; [by intros _|done].
  - destruct Hext as [Hl' (lo & hi & Hidx & Heq)].
    destruct (PyList.setitem_slice (_block_ids T) s (number_at (blocks h) <$> bl))
      as [e|il] eqn:E'; [done|].
    assert (r = (None, store_table self {| _blocks := l'; _block_ids := il |} h)) as ->.
    { unfold r, setitem. rewrite HT. simpl. by rewrite E, E'. }
    simpl. rewrite list_of_store_table, ids_store_table. simpl.
    split_and!; [by left| |by rewrite Hl'|lia].
    split; [done|]. intros [->|(lo' & hi' & Hidx' & Hneq)].
    + unfold PyList.slice_indices in Hidx. rewrite Hstep in Hidx. simpl in Hidx. done.
    + rewrite Hidx in Hidx'. injection Hidx' as <- <-. done.
Qed.

Lemma setitem_slice_strided_witness :
  is_table (run sample_program empty_heap) 1%nat = true
  ∧ length (ids 1%nat (run sample_program empty_heap))
    = length (list_of 1%nat (run sample_program empty_heap))
  ∧ len 1%nat
      (setitem 1%nat (AtSlice (PyList.Slice None None (Some (-2))) [0%nat])
         (run sample_program empty_heap)).2
    = len 1%nat (run sample_program empty_heap).
Proof.
  assert (is_table (run sample_program empty_heap) 1%nat = true) as Ht
    by (vm_compute; reflexivity).
  assert (length (ids 1%nat (run sample_program empty_heap))
          = length (list_of 1%nat (run sample_program empty_heap))) as Hl
    by (vm_compute; reflexivity).
  pose proof (setitem_slice_strided (run sample_program empty_heap) 1%nat
                (PyList.Slice None None (Some (-2))) [0%nat] (-2) Ht Hl eq_refl ltac:(lia))
    as (_ & _ & Hlen & _).
  exact (conj Ht (conj Hl Hlen)).
Defined.

Lemma getitem_index_lookup {A} (l : list A) (i : nat) (x : A) :
  l !! i = Some x ->
  PyList.getitem_index l (Z.of_nat i) = inr x
  ∧ PyList.getitem_index l (Z.of_nat i - Z.of_nat (length l)) = inr x.
Proof.
  intros Hx. pose proof (lookup_lt_Some _ _ _ Hx) as Hlt. unfold PyList.getitem_index.
  assert (PyList.norm_index (Z.of_nat (length l)) (Z.of_nat i) = Some i) as ->.
  { apply PyListMore.norm_index_Some. split; [lia|].
    destruct (Z.of_nat i <? 0) eqn:E; [apply Z.ltb_lt in E|]; lia. }
  assert (PyList.norm_index (Z.of_nat (length l)) (Z.of_nat i - Z.of_nat (length l)) = Some i)
    as ->.
  { apply PyListMore.norm_index_Some. split; [lia|].
    destruct (Z.of_nat i - Z.of_nat (length l) <? 0) eqn:E;
      [apply Z.ltb_lt in E|apply Z.ltb_ge in E]; lia. }
  by rewrite Hx.
Qed.

Lemma getitem_index_nil {A} (key : Z) : PyList.getitem_index (A := A) [] key = inl IndexError.
Proof.
  unfold PyList.getitem_index. destruct (PyList.norm_index _ key) as [i|] eqn:E; [|done].
  apply PyListMore.norm_index_lt in E. simpl in E. lia.
Qed.

(** X6. Construction from a list. [BlockTable(blocks)] is a new table
    whose [list()] is [blocks], in order, whose [ids()] holds their
    numbers and whose length is theirs; position [i] reads back the i-th
    block, also through the negative key [i - len]. [BlockTable()] is
    empty and every read of it raises [IndexError]. Existing tables are
    not touched. *)
Theorem new_table_reads_back (h : Heap) (bl : list loc) :
  let r := BlockTable_new (Some bl) h in
  let e := BlockTable_new None h in
  tables h !! r.1 = None
  ∧ list_of r.1 r.2 = bl
  ∧ ids r.1 r.2 = number_at (blocks h) <$> bl
  ∧ len r.1 r.2 = Z.of_nat (length bl)
  ∧ (forall (i : nat) (b : loc), bl !! i = Some b ->
       getitem r.1 (Z.of_nat i) r.2 = inr b
       ∧ getitem r.1 (Z.of_nat i - Z.of_nat (length bl)) r.2 = inr b)
  ∧ (forall key : Z, key < - Z.of_nat (length bl) ∨ Z.of_nat (length bl) <= key ->
       getitem r.1 key r.2 = inl IndexError)
  ∧ list_of e.1 e.2 = [] ∧ ids e.1 e.2 = []
  ∧ (forall key : Z, getitem e.1 key e.2 = inl IndexError).
Proof.
  intros r e. unfold r, e, BlockTable_new, len, getitem.
  rewrite init_fields_eq. cbn [fst snd].
  rewrite !list_of_store_table, !ids_store_table. simpl.
  split_and!; try done.
  - apply fresh_table_unused.
  - intros i b Hb. by apply getitem_index_lookup.
  - intros key Hout. unfold PyList.getitem_index.
    apply PyListMore.norm_index_None in Hout. by rewrite Hout.
  - intros key. apply getitem_index_nil.
Qed.

(** X7. Appending. On a table object, [append(block)] adds the block at
    the end and its number at the end of [ids()]: the length grows by
    one, [t[-1]] is the new block, and the positions before read as they
    did. *)
Theorem append_adds_last (h : Heap) (self block : loc) :
  is_table h self = true ->
  let h' := append self block h in
  list_of self h' = list_of self h ++ [block]
  ∧ ids self h' = ids self h ++ [number_at (blocks h) block]
  ∧ len self h' = len self h + 1
  ∧ getitem self (-1) h' = inr block
  ∧ (forall (i : nat) (b : loc), list_of self h !! i = Some b ->
       getitem self (Z.of_nat i) h' = inr b).
Proof.
  intros [T HT]%is_table_true h'. unfold h', append, on_table, len, getitem.
  rewrite HT. rewrite list_of_store_table, ids_store_table. simpl.
  assert (list_of self h = _blocks T) as -> by (unfold list_of; by rewrite HT).
  assert (ids self h = _block_ids T) as -> by (unfold ids; by rewrite HT).
  split_and!; [done|done|rewrite length_app; simpl; lia| |].
  - assert ((_blocks T ++ [block]) !! length (_blocks T) = Some block) as Hlast.
    { rewrite lookup_app_r by lia. by rewrite Nat.sub_diag. }
    destruct (getitem_index_lookup _ _ _ Hlast) as [_ Hneg].
    rewrite length_app in Hneg. simpl in Hneg.
    replace (Z.of_nat (length (_blocks T)) - Z.of_nat (length (_blocks T) + 1)) with (-1)
      in Hneg by lia.
    exact Hneg.
  - intros i b Hb. apply getitem_index_lookup. by apply lookup_app_l_Some.
Qed.

Lemma append_adds_last_witness :
  is_table parent_heap 0%nat = true
  ∧ list_of 0%nat (append 0%nat 0%nat parent_heap) = list_of 0%nat parent_heap ++ [0%nat].
Proof.
  assert (is_table parent_heap 0%nat = true) as Ht by (vm_compute; reflexivity).
  exact (conj Ht (proj1 (append_adds_last parent_heap 0%nat 0%nat Ht))).
Defined.

(** *** Tables over whole programs *)

(** The table an operation is called on, for the operations that write
    to their table. *)
Definition receiver (o : op) : option loc :=
  match o with
  | Append self _ | SetItem self _ | Reset self => Some self
  | New _ | Copy _ | AllocBlock _ | UpdateBlock _ _ => None
  end.

Lemma exec_keeps_table o h t T :
  tables h !! t = Some T -> receiver o ≠ Some t -> tables (exec o h) !! t = Some T.
Proof.
  intros HT Hr. unfold exec. destruct (well_formed o h); [|done].
  assert (fresh_table h ≠ t) as Hfresh.
  { intros E. pose proof (fresh_table_unused h) as Hf. rewrite E in Hf. congruence. }
  assert (forall t' T', t' ≠ t -> tables (store_table t' T' h) !! t = Some T) as Hst.
  { intros t' T' Hne. by rewrite store_table_other. }
  destruct o as [bl|self b|self a|self|self|b|l b]; simpl in Hr.
  - apply Hst, Hfresh.
  - assert (self ≠ t) as Hne by congruence.
    unfold append, on_table. destruct (tables h !! self); [by apply Hst|done].
  - assert (self ≠ t) as Hne by congruence.
    unfold setitem. destruct (tables h !! self); [|done].
    destruct (setitem_fields _ _ _ a). by apply Hst.
  - assert (self ≠ t) as Hne by congruence.
    unfold reset, on_table. destruct (tables h !! self); [by apply Hst|done].
  - unfold copy, BlockTable_new. destruct (tables h !! self); by apply Hst.
  - done.
  - done.
Qed.

Lemma run_keeps_table program h t T :
  tables h !! t = Some T -> Forall (fun o => receiver o ≠ Some t) program ->
  tables (run program h) !! t = Some T.
Proof.
  revert h. induction program as [|o program IH]; intros h HT Hall; simpl; [done|].
  apply Forall_cons in Hall as [Ho Hall]. apply IH; [|done]. by apply exec_keeps_table.
Qed.

(** X15. A fork is independent of its parent. [copy] gives a table object
    other than [self] with the same blocks; from then on, whatever
    program runs, the parent holds what it held as long as no [append],
    [__setitem__] or [reset] is called on the parent itself, and the
    child likewise: writing to one never shows in the other. *)
Theorem fork_is_independent (h : Heap) (parent : loc) (T : BlockTable) (program : list op) :
  tables h !! parent = Some T ->
  let child := (copy parent h).1 in
  let h1 := (copy parent h).2 in
  child ≠ parent
  ∧ list_of child h1 = list_of parent h1
  ∧ (Forall (fun o => receiver o ≠ Some parent) program ->
     tables (run program h1) !! parent = Some T)
  ∧ (Forall (fun o => receiver o ≠ Some child) program ->
     tables (run program h1) !! child = tables h1 !! child
     ∧ list_of child (run program h1) = _blocks T).
Proof.
  intros HT child h1.
  assert (child = fresh_table h) as Hchild by (unfold child, copy; by rewrite HT).
  assert (h1 = store_table (fresh_table h) (init_fields (blocks h) (Some (_blocks T))) h) as Hh1.
  { unfold h1, copy. by rewrite HT. }
  assert (child ≠ parent) as Hne.
  { rewrite Hchild. intros E. pose proof (fresh_table_unused h) as Hf.
    rewrite E in Hf. congruence. }
  assert (tables h1 !! parent = Some T) as HT1.
  { rewrite Hh1, store_table_other; [done|]. by rewrite <- Hchild. }
  assert (tables h1 !! child = Some (init_fields (blocks h) (Some (_blocks T)))) as HC1.
  { rewrite Hh1, Hchild. unfold store_table. simpl. by rewrite lookup_insert_eq. }
  split; [done|]. split.
  { unfold list_of. rewrite HT1, HC1. by rewrite init_fields_eq. }
  split.
  - intros Hall. by apply run_keeps_table.
  - intros Hall. rewrite HC1.
    pose proof (run_keeps_table program h1 child _ HC1 Hall) as Hrun.
    split; [done|]. unfold list_of. rewrite Hrun. by rewrite init_fields_eq.
Qed.

Lemma fork_is_independent_witness :
  tables parent_heap !! 0%nat = Some parent_table
  ∧ tables (run [Append 1%nat 0%nat; Reset 1%nat] (copy 0%nat parent_heap).2) !! 0%nat
    = Some parent_table.
Proof.
  assert (tables parent_heap !! 0%nat = Some parent_table) as HT by reflexivity.
  pose proof (fork_is_independent parent_heap 0%nat parent_table
                [Append 1%nat 0%nat; Reset 1%nat] HT) as (_ & _ & Hp & _).
  refine (conj HT (Hp _)).
  repeat constructor; simpl; congruence.
Defined.

Example fork_then_append_run :
  let h1 := (copy 0%nat parent_heap).2 in
  (copy 0%nat parent_heap).1 = 1%nat
  ∧ list_of 1%nat (run [Append 1%nat 0%nat] h1) = [0%nat; 0%nat]
  ∧ list_of 0%nat (run [Append 1%nat 0%nat] h1) = [0%nat].
Proof. vm_compute. done. Qed.

(** Appending a list of blocks, one call after the other. *)
Definition append_all (self : loc) (bl : list loc) (h : Heap) : Heap :=
  foldl (fun h b => append self b h) h bl.

Lemma append_blocks self b h : blocks (append self b h) = blocks h.
Proof. unfold append, on_table. by destruct (tables h !! self). Qed.

Lemma append_all_fields self bl h T :
  tables h !! self = Some T ->
  tables (append_all self bl h) !! self
  = Some {| _blocks := _blocks T ++ bl;
            _block_ids := _block_ids T ++ (number_at (blocks h) <$> bl) |}
  ∧ blocks (append_all self bl h) = blocks h.
Proof.
  revert h T. induction bl as [|b bl IH]; intros h T HT; simpl.
  - rewrite !app_nil_r. by destruct T.
  - assert (tables (append self b h) !! self = Some (append_fields (blocks h) T b)) as HT'.
    { unfold append, on_table. rewrite HT. unfold store_table. simpl.
      by rewrite lookup_insert_eq. }
    destruct (IH _ _ HT') as [Hf Hb]. unfold append_all in *. rewrite Hf, Hb.
    rewrite append_blocks. simpl. by rewrite <- !app_assoc.
Qed.

(** X16. Emptying and refilling. After [reset()] a table has length 0 and
    every read of it raises [IndexError]; appending the blocks of a list
    one by one then leaves it with exactly the contents of
    [BlockTable(blocks)]: the list and the numbers, in order. No block is
    written on the way. *)
Theorem reset_then_refill (h : Heap) (self : loc) (bl : list loc) :
  is_table h self = true ->
  let h0 := reset self h in
  let h' := append_all self bl h0 in
  let new := BlockTable_new (Some bl) h in
  len self h0 = 0
  ∧ ids self h0 = []
  ∧ (forall key : Z, getitem self key h0 = inl IndexError)
  ∧ list_of self h' = bl
  ∧ ids self h' = number_at (blocks h) <$> bl
  ∧ tables h' !! self = tables new.2 !! new.1
  ∧ blocks h' = blocks h.
Proof.
  intros [T HT]%is_table_true h0 h' new.
  assert (tables h0 !! self = Some {| _blocks := []; _block_ids := [] |}) as H0.
  { unfold h0, reset, on_table. rewrite HT. unfold store_table. simpl.
    by rewrite lookup_insert_eq. }
  assert (blocks h0 = blocks h) as Hb0.
  { unfold h0, reset, on_table. by rewrite HT. }
  destruct (append_all_fields self bl h0 _ H0) as [Hf Hb]. simpl in Hf.
  fold h' in Hf, Hb. rewrite Hb0 in Hf, Hb.
  unfold len, getitem, list_of, ids. rewrite H0, Hf. simpl.
  split_and!; try done.
  - intros key. apply getitem_index_nil.
  - rewrite lookup_insert_eq. f_equal. symmetry. exact (init_fields_eq (blocks h) bl).
Qed.

Lemma reset_then_refill_witness :
  is_table parent_heap 0%nat = true
  ∧ list_of 0%nat (append_all 0%nat [0%nat; 0%nat] (reset 0%nat parent_heap)) = [0%nat; 0%nat]
  ∧ ids 0%nat (append_all 0%nat [0%nat; 0%nat] (reset 0%nat parent_heap)) = [7; 7].
Proof.
  assert (is_table parent_heap 0%nat = true) as Ht by (vm_compute; reflexivity).
  pose proof (reset_then_refill parent_heap 0%nat [0%nat; 0%nat] Ht) as (_ & _ & _ & Hl & Hi & _).
  exact (conj Ht (conj Hl Hi)).
Defined.


End BlockMore.

(** ** Serving: model names, truncation, token strings *)

Module ServingMore.
Import Serving.

Lemma is_model_supported_iff (paths : list BaseModelPath) (model : string) :
  _is_model_supported paths model = true <-> exists p, p ∈ paths ∧ name p = model.
Proof.
  unfold _is_model_supported. rewrite existsb_exists. split.
  - intros (p & Hin & Heq). exists p. split; [by apply list_elem_of_In|by apply String.eqb_eq].
  - intros (p & Hin & Heq). exists p. split; [by apply list_elem_of_In|by apply String.eqb_eq].
Qed.

(** X8. The model check and the adapter lookup agree. [_check_model]
    returns no error exactly when some base model path has the requested
    name, and exactly then [_maybe_get_adapters] returns [(None, None)];
    otherwise [_check_model] answers with a [NotFoundError] of code 404
    and [_maybe_get_adapters] raises [ValueError]. So after a passed
    [_check_model] the raise in [_maybe_get_adapters] is unreachable. *)
Theorem check_model_guards_adapters (paths : list BaseModelPath) (model : string) :
  (_check_model paths model = None <-> exists p, p ∈ paths ∧ name p = model)
  ∧ (_check_model paths model = None <-> _maybe_get_adapters paths model = inr (None, None))
  ∧ (_check_model paths model ≠ None <-> _maybe_get_adapters paths model = inl ValueError)
  ∧ (forall e, _check_model paths model = Some e -> code e = 404 ∧ type e = "NotFoundError").
Proof.
  rewrite <- is_model_supported_iff. unfold _check_model, _maybe_get_adapters.
  destruct (_is_model_supported paths model); split_and!.
  all: try (split; intros; congruence).
  all: try (intros e; congruence).
  intros e [= <-]. done.
Qed.

(** *** Truncating a token prompt *)

Lemma positions_from (A : Type) (l : list A) (lo n : nat) :
  (lo + n <= length l)%nat ->
  omap (fun p => l !! Z.to_nat p) ((fun i => Z.of_nat lo + i * 1) <$> seqZ 0 (Z.of_nat n))
  = take n (drop lo l).
Proof.
  induction n as [|n IH]; intros Hlen; [done|].
  rewrite seqZ_S, fmap_app, omap_app, IH by lia. simpl.
  assert (is_Some (l !! (lo + n)%nat)) as [x Hx] by (apply lookup_lt_is_Some; lia).
  replace (Z.to_nat (Z.of_nat lo + (0 + Z.of_nat n) * 1)) with (lo + n)%nat by lia.
  rewrite Hx. simpl. symmetry. apply take_S_r. by rewrite lookup_drop.
Qed.

Lemma positions_to_end (A : Type) (l : list A) (lo : nat) :
  (lo <= length l)%nat ->
  omap (fun p => l !! Z.to_nat p)
    (PyList.slice_positions (Z.of_nat lo) (Z.of_nat (length l)) 1)
  = drop lo l.
Proof.
  intros Hlo. unfold PyList.slice_positions, PyList.slice_length.
  change (1 <? 0) with false. cbv iota.
  destruct (Z.of_nat lo <? Z.of_nat (length l)) eqn:E;
    [apply Z.ltb_lt in E|apply Z.ltb_ge in E].
  - rewrite Z.div_1_r.
    replace (Z.of_nat (length l) - Z.of_nat lo - 1 + 1) with (Z.of_nat (length l - lo)) by lia.
    rewrite positions_from by lia. apply take_ge. rewrite length_drop. lia.
  - simpl. symmetry. apply drop_ge. lia.
Qed.

(** [l[-k:]] for [k >= 1] is the last [k] elements, or all of [l] when it
    has fewer. *)
Lemma getitem_last (A : Type) (l : list A) (k : Z) :
  1 <= k ->
  PyList.getitem_slice l (PyList.Slice (Some (- k)) None None)
  = inr (drop (length l - Z.to_nat k) l).
Proof.
  intros Hk. unfold PyList.getitem_slice.
  assert (PyList.slice_indices (Z.of_nat (length l)) (PyList.Slice (Some (- k)) None None)
          = inr (Z.of_nat (length l - Z.to_nat k), Z.of_nat (length l), 1)) as ->.
  { unfold PyList.slice_indices, PyList.adjust_bound. simpl.
    assert ((- k <? 0) = true) as -> by (apply Z.ltb_lt; lia).
    destruct (- k + Z.of_nat (length l) <? 0) eqn:E;
      [apply Z.ltb_lt in E|apply Z.ltb_ge in E]; repeat f_equal; lia. }
  f_equal. apply positions_to_end. lia.
Qed.

Section Tokenizing.
Variable decode : list Z -> string.
Variable max_model_len : Z.

(** X9. Truncation bounds the prompt. With [truncate_prompt_tokens = k],
    [k >= 1], [_normalize_prompt_tokens_to_input] keeps the last [k]
    tokens of the prompt (all of them when there are fewer), decodes
    those and validates them: so a completion request asking for
    [max_tokens] with [k + max_tokens <= max_model_len] is accepted
    however long the prompt is, and so is one without [max_tokens] when
    [k < max_model_len]. *)
Theorem truncated_prompt_fits (request : AnyRequest) (prompt_ids : list Z) (k : Z) :
  1 <= k ->
  let kept := drop (length prompt_ids - Z.to_nat k) prompt_ids in
  _normalize_prompt_tokens_to_input decode max_model_len request prompt_ids (Some k)
  = _validate_input max_model_len request kept (decode kept)
  ∧ Z.of_nat (length kept) = Z.min k (Z.of_nat (length prompt_ids))
  ∧ (forall m,
       (request = CompletionRequest (Some m) ∨ request = ChatCompletionRequest (Some m)) ->
       k + m <= max_model_len ->
       _normalize_prompt_tokens_to_input decode max_model_len request prompt_ids (Some k)
       = inr {| prompt := decode kept; prompt_token_ids := kept |})
  ∧ ((request = CompletionRequest None ∨ request = ChatCompletionRequest None) ->
     k < max_model_len ->
     _normalize_prompt_tokens_to_input decode max_model_len request prompt_ids (Some k)
     = inr {| prompt := decode kept; prompt_token_ids := kept |}).
Proof.
  intros Hk kept.
  assert (_normalize_prompt_tokens_to_input decode max_model_len request prompt_ids (Some k)
          = _validate_input max_model_len request kept (decode kept)) as Hnorm.
  { unfold _normalize_prompt_tokens_to_input. by rewrite getitem_last. }
  assert (Z.of_nat (length kept) = Z.min k (Z.of_nat (length prompt_ids))) as Hlen.
  { unfold kept. rewrite length_drop. lia. }
  split_and!; [done|done| |].
  - intros m Hreq Hfit. rewrite Hnorm.
    assert ((max_model_len <? Z.of_nat (length kept) + m) = false) as Htest
      by (apply Z.ltb_ge; lia).
    destruct Hreq as [-> | ->]; simpl; by rewrite Htest.
  - intros Hreq Hfit. rewrite Hnorm.
    assert ((max_model_len <=? Z.of_nat (length kept)) = false) as Htest
      by (apply Z.leb_gt; lia).
    destruct Hreq as [-> | ->]; simpl; by rewrite Htest.
Qed.

(** Without truncation the prompt is validated whole. *)
Lemma untruncated_prompt (request : AnyRequest) (prompt_ids : list Z) :
  _normalize_prompt_tokens_to_input decode max_model_len request prompt_ids None
  = _validate_input max_model_len request prompt_ids (decode prompt_ids).
Proof. reflexivity. Qed.
End Tokenizing.

Lemma truncated_prompt_fits_witness :
  1 <= 2
  ∧ _normalize_prompt_tokens_to_input (fun ids => pretty (foldr Z.add 0 ids)) 4
      (CompletionRequest (Some 2)) [5; 6; 7; 8; 9] (Some 2)
    = inr {| prompt := "17"; prompt_token_ids := [8; 9] |}.
Proof.
  assert (1 <= 2) as Hk by lia.
  pose proof (truncated_prompt_fits (fun ids => pretty (foldr Z.add 0 ids)) 4
                (CompletionRequest (Some 2)) [5; 6; 7; 8; 9] 2 Hk) as (_ & _ & Hfit & _).
  exact (conj Hk (Hfit 2 (or_introl eq_refl) ltac:(lia))).
Defined.

(** X10. Token ids as strings. With [return_as_token_id] the decoded
    token is ["token_id:"] followed by the decimal id, whatever the
    logprob and the tokenizer say, and different ids give different
    strings. Without it the logprob's own [decoded_token] wins over the
    tokenizer. *)
Theorem decoded_token_identifies_id (decode_token decode_token' : Z -> string)
    (logprob logprob' : Logprob) (token_id token_id' : Z) :
  _get_decoded_token decode_token logprob token_id true = "token_id:" +:+ pretty token_id
  ∧ (_get_decoded_token decode_token logprob token_id true
     = _get_decoded_token decode_token' logprob' token_id' true <-> token_id = token_id')
  ∧ (forall s, decoded_token logprob = Some s ->
       _get_decoded_token decode_token logprob token_id false = s)
  ∧ (decoded_token logprob = None ->
     _get_decoded_token decode_token logprob token_id false = decode_token token_id).
Proof.
  unfold _get_decoded_token. split_and!.
  - done.
  - split; [|by intros ->]. intros Heq.
    apply (inj (String.append "token_id:")) in Heq. by apply (inj pretty) in Heq.
  - by intros s ->.
  - by intros ->.
Qed.

End ServingMore.

(** ** Grammars from choices, configurations and vocabularies *)

Module XGrammarMore.
Import XGrammar.

(** *** Reading an escaped string back

    A reader of the body of an EBNF string literal: it stops at the first
    double quote that is not escaped and gives the characters read, a
    backslash standing for the character after it, and the text after
    the closing quote. *)
Fixpoint read_string_body (s : string) : option (string * string) :=
  match s with
  | EmptyString => None
  | String c s' =>
      if Ascii.eqb c dquote then Some (EmptyString, s')
      else if Ascii.eqb c backslash then
        match s' with
        | EmptyString => None
        | String d s'' =>
            match read_string_body s'' with
            | Some (body, rest) => Some (String d body, rest)
            | None => None
            end
        end
      else
        match read_string_body s' with
        | Some (body, rest) => Some (String c body, rest)
        | None => None
        end
  end.

(** How many characters of a string the escaping has to protect. *)
Fixpoint specials (s : string) : nat :=
  match s with
  | EmptyString => 0
  | String c s' => ((if is_special c then 1 else 0) + specials s')%nat
  end.

Lemma append_cons (x : Ascii.ascii) (a b : string) :
  String x a +:+ b = String x (a +:+ b).
Proof. reflexivity. Qed.

Lemma append_nil (b : string) : EmptyString +:+ b = b.
Proof. reflexivity. Qed.

Lemma append_assoc (a b c : string) : (a +:+ b) +:+ c = a +:+ (b +:+ c).
Proof.
  induction a as [|x a IH]; [by rewrite !append_nil|].
  by rewrite !append_cons, IH.
Qed.

Lemma append_length (a b : string) :
  String.length (a +:+ b) = (String.length a + String.length b)%nat.
Proof.
  induction a as [|x a IH]; [by rewrite append_nil|].
  rewrite append_cons. simpl. by rewrite IH.
Qed.

Lemma read_escaped (s rest : string) :
  read_string_body (escape_ebnf_string s +:+ String dquote rest) = Some (s, rest).
Proof.
  induction s as [|c s IH]; [reflexivity|].
  cbn [escape_ebnf_string]. unfold is_special.
  destruct (Ascii.eqb c dquote) eqn:Eq.
  - apply Ascii.eqb_eq in Eq as ->. cbn [orb]. rewrite !append_cons.
    cbn [read_string_body]. change (Ascii.eqb backslash dquote) with false.
    rewrite Ascii.eqb_refl. cbn iota. by rewrite IH.
  - destruct (Ascii.eqb c backslash) eqn:Eb; cbn [orb].
    + apply Ascii.eqb_eq in Eb as ->. rewrite !append_cons.
      cbn [read_string_body]. change (Ascii.eqb backslash dquote) with false.
      rewrite Ascii.eqb_refl. cbn iota. by rewrite IH.
    + rewrite append_cons. cbn [read_string_body]. by rewrite Eq, Eb, IH.
Qed.

Lemma escape_length (s : string) :
  String.length (escape_ebnf_string s) = (String.length s + specials s)%nat.
Proof.
  induction s as [|c s IH]; [done|]. simpl.
  destruct (is_special c); simpl; rewrite IH; lia.
Qed.

Lemma escape_plain (s : string) : specials s = 0%nat -> escape_ebnf_string s = s.
Proof.
  induction s as [|c s IH]; [done|]. simpl.
  destruct (is_special c); [done|]. intros Hs. by rewrite IH.
Qed.

(** X11. Escaping protects a string inside double quotes. Followed by a
    closing quote, the escaped string reads back as the original string,
    with nothing of it taken for the closing quote; hence escaping is
    injective. It adds one character per double quote or backslash and
    leaves a string without them as it is. *)
Theorem escape_ebnf_reads_back (s rest : string) :
  read_string_body (escape_ebnf_string s +:+ String dquote rest) = Some (s, rest)
  ∧ (forall s', escape_ebnf_string s = escape_ebnf_string s' -> s = s')
  ∧ String.length (escape_ebnf_string s) = (String.length s + specials s)%nat
  ∧ (specials s = 0%nat -> escape_ebnf_string s = s).
Proof.
  split_and!.
  - apply read_escaped.
  - intros s' Heq.
    pose proof (read_escaped s EmptyString) as H1.
    pose proof (read_escaped s' EmptyString) as H2.
    rewrite Heq in H1. congruence.
  - apply escape_length.
  - apply escape_plain.
Qed.

(** *** Reading a grammar of choices back *)

Fixpoint strip_prefix (p s : string) : option string :=
  match p, s with
  | EmptyString, _ => Some s
  | String a p', String b s' => if Ascii.eqb a b then strip_prefix p' s' else None
  | String _ _, EmptyString => None
  end.

(** A reader of [""c1"" | ""c2"" | ...]: quoted strings separated by a
    bar between two spaces. [fuel] bounds the number of alternatives. *)
Fixpoint read_alternatives (fuel : nat) (s : string) : option (list string) :=
  match fuel with
  | O => None
  | S fuel' =>
      match s with
      | EmptyString => None
      | String c s' =>
          if Ascii.eqb c dquote then
            match read_string_body s' with
            | None => None
            | Some (body, EmptyString) => Some [body]
            | Some (body, rest) =>
                match strip_prefix " | " rest with
                | None => None
                | Some rest' => cons body <$> read_alternatives fuel' rest'
                end
            end
          else None
      end
  end.

(** A reader of the grammars [choice_as_grammar] writes. *)
Definition read_choices (g : string) : option (list string) :=
  match strip_prefix "root ::= " g with
  | None => None
  | Some EmptyString => Some []
  | Some rest => read_alternatives (String.length rest) rest
  end.

Lemma strip_prefix_append (p s : string) : strip_prefix p (p +:+ s) = Some s.
Proof.
  induction p as [|a p IH]; [by rewrite append_nil|].
  rewrite append_cons. simpl. by rewrite Ascii.eqb_refl.
Qed.

Definition alternatives (cs : list string) : string :=
  String.concat " | " (quoted <$> (escape_ebnf_string <$> cs)).

Lemma alternatives_cons (c : string) (cs : list string) :
  alternatives (c :: cs)
  = String dquote (escape_ebnf_string c +:+ String dquote
      (match cs with [] => EmptyString | _ => " | " +:+ alternatives cs end)).
Proof.
  unfold alternatives. destruct cs as [|c' cs]; [reflexivity|].
  rewrite !fmap_cons.
  change (String.concat " | " (quoted (escape_ebnf_string c)
            :: quoted (escape_ebnf_string c') :: (quoted <$> (escape_ebnf_string <$> cs))))
    with (quoted (escape_ebnf_string c) +:+ " | "
          +:+ String.concat " | " (quoted (escape_ebnf_string c')
                :: (quoted <$> (escape_ebnf_string <$> cs)))).
  unfold quoted at 1. rewrite append_cons. f_equal. apply append_assoc.
Qed.

Lemma alternatives_nonempty (c : string) (cs : list string) :
  exists a r, alternatives (c :: cs) = String a r.
Proof. rewrite alternatives_cons. by eexists _, _. Qed.

Lemma read_alternatives_written (cs : list string) (fuel : nat) :
  cs ≠ [] -> (length cs <= fuel)%nat ->
  read_alternatives fuel (alternatives cs) = Some cs.
Proof.
  revert fuel. induction cs as [|c cs IH]; intros fuel Hne Hfuel; [done|].
  destruct fuel as [|fuel]; [simpl in Hfuel; lia|].
  rewrite alternatives_cons. cbn [read_alternatives].
  rewrite Ascii.eqb_refl, read_escaped.
  destruct cs as [|c' cs]; [done|].
  rewrite !append_cons, append_nil. cbn [strip_prefix]. rewrite !Ascii.eqb_refl.
  rewrite IH; [done|done|simpl in *; lia].
Qed.

Lemma alternatives_length (cs : list string) :
  (length cs <= String.length (alternatives cs))%nat.
Proof.
  induction cs as [|c cs IH]; [simpl; lia|].
  rewrite alternatives_cons. simpl. rewrite append_length. simpl.
  destruct cs as [|c' cs]; [simpl; lia|].
  rewrite append_length. simpl in *. lia.
Qed.

(** X12. A grammar of choices reads back as the choices.
    [choice_as_grammar] raises [ValueError] without a choice list; for a
    list it gives [root ::= ] followed by the escaped choices in double
    quotes, separated by [ | ] (nothing after [root ::= ] for the empty
    list); reading that grammar gives the list back, so different lists
    give different grammars. *)
Theorem choice_grammar_reads_back (cs : list string) :
  choice_as_grammar None = inl ValueError
  ∧ choice_as_grammar (Some []) = inr "root ::= "
  ∧ (exists g, choice_as_grammar (Some cs) = inr g ∧ read_choices g = Some cs)
  ∧ (forall cs', choice_as_grammar (Some cs) = choice_as_grammar (Some cs') -> cs = cs').
Proof.
  assert (forall l, read_choices ("root ::= " +:+ alternatives l) = Some l) as Hread.
  { intros l. unfold read_choices. rewrite strip_prefix_append.
    destruct l as [|c l]; [done|].
    destruct (alternatives_nonempty c l) as (a & r & Halt).
    rewrite Halt, <- Halt. apply read_alternatives_written; [done|].
    apply alternatives_length. }
  split_and!; [done|done| |].
  - exists ("root ::= " +:+ alternatives cs). split; [done|apply Hread].
  - intros cs' Heq.
    assert (forall l, choice_as_grammar (Some l) = inr ("root ::= " +:+ alternatives l)) as Hg
      by done.
    rewrite !Hg in Heq.
    pose proof (Hread cs) as H1. pose proof (Hread cs') as H2. congruence.
Qed.

(** *** The vocabulary keeps the tokenizer's indexing *)

(** The token a vocabulary assigns to an id: the last entry with that id,
    as the loop overwrites earlier ones. *)
Definition token_at (items : list (string * Z)) (i : Z) : option string :=
  fst <$> last (filter (fun p => p.2 = i) items).

Lemma token_at_cons (tok : string) (idx : Z) (rest : list (string * Z)) (i : Z) :
  token_at ((tok, idx) :: rest) i
  = match token_at rest i with
    | Some t => Some t
    | None => if decide (idx = i) then Some tok else None
    end.
Proof.
  unfold token_at. rewrite filter_cons. simpl.
  destruct (decide (idx = i)) as [->|Hne].
  - rewrite last_cons. by destruct (last (filter _ rest)).
  - by destruct (last (filter _ rest)).
Qed.

Lemma fill_vocab_indexing (n : Z) (items : list (string * Z)) (enc : list string) :
  length enc = Z.to_nat n ->
  Forall (fun p => 0 <= p.2) items ->
  exists enc',
    fill_vocab n items enc = inr enc'
    ∧ length enc' = length enc
    ∧ forall i : nat, (i < length enc)%nat ->
        enc' !! i = match token_at items (Z.of_nat i) with
                    | Some t => Some t
                    | None => enc !! i
                    end.
Proof.
  revert enc. induction items as [|[tok idx] rest IH]; intros enc Hlen Hnn.
  - exists enc. split_and!; try done.
  - inversion Hnn as [|? ? Hidx Hrest]; subst. simpl in Hidx. simpl.
    destruct (idx <? n) eqn:E; [apply Z.ltb_lt in E|apply Z.ltb_ge in E].
    + unfold PyList.setitem_index.
      assert (PyList.norm_index (Z.of_nat (length enc)) idx = Some (Z.to_nat idx)) as ->.
      { apply PyListMore.norm_index_Some. split; [lia|].
        destruct (idx <? 0) eqn:E0; [apply Z.ltb_lt in E0; lia|done]. }
      destruct (IH (<[Z.to_nat idx := tok]> enc)) as (enc' & Hfill & Hl & Hget).
      { by rewrite length_insert. }
      { done. }
      exists enc'. rewrite length_insert in Hl, Hget.
      split_and!; [done|done|]. intros i Hi. rewrite (Hget i Hi), token_at_cons.
      destruct (token_at rest (Z.of_nat i)); [done|].
      destruct (decide (idx = Z.of_nat i)) as [->|Hne].
      * rewrite Nat2Z.id. by apply list_lookup_insert_eq.
      * apply list_lookup_insert_ne. lia.
    + destruct (IH enc Hlen Hrest) as (enc' & Hfill & Hl & Hget).
      exists enc'. split_and!; [done|done|]. intros i Hi. rewrite (Hget i Hi), token_at_cons.
      destruct (token_at rest (Z.of_nat i)); [done|].
      destruct (decide (idx = Z.of_nat i)); [lia|done].
Qed.

(** X14. The cached vocabulary keeps the tokenizer's indexing. For a
    tokenizer not yet cached whose vocabulary has no negative id,
    [get_tokenizer_data] returns and caches an entry whose
    [encoded_vocab] has exactly [vocab_size] positions; position [i]
    holds the token the vocabulary gives id [i] (the last one, if
    several) and the empty string if it gives none; ids from
    [vocab_size] on are dropped. *)
Theorem vocabulary_keeps_indexing (t : Tokenizer) (c : Caches) (vocab : list (string * Z)) :
  tokenizer_cache c !! tokenizer_hash_of t = None ->
  get_vocab t = Some vocab ->
  Forall (fun p => 0 <= p.2) vocab ->
  exists d,
    (get_tokenizer_data t c).1 = inr d
    ∧ tokenizer_cache (get_tokenizer_data t c).2 !! tokenizer_hash_of t = Some d
    ∧ vocab_size d = info_vocab_size (from_huggingface t)
    ∧ length (encoded_vocab d) = Z.to_nat (vocab_size d)
    ∧ forall i : nat, (Z.of_nat i < vocab_size d) ->
        encoded_vocab d !! i = Some (default EmptyString (token_at vocab (Z.of_nat i))).
Proof.
  intros Hmiss Hvocab Hnn. unfold get_tokenizer_data. rewrite Hmiss, Hvocab.
  set (n := info_vocab_size (from_huggingface t)).
  destruct (fill_vocab_indexing n vocab (replicate (Z.to_nat n) EmptyString))
    as (enc' & Hfill & Hl & Hget); [by rewrite length_replicate|done|].
  rewrite Hfill. simpl. eexists. split; [reflexivity|]. simpl.
  split_and!.
  - apply lookup_insert_eq.
  - done.
  - by rewrite Hl, length_replicate.
  - intros i Hi. rewrite length_replicate in Hget. rewrite Hget by lia.
    destruct (token_at vocab (Z.of_nat i)); [done|]. simpl.
    apply lookup_replicate. split; [done|lia].
Qed.

Lemma vocabulary_keeps_indexing_witness :
  tokenizer_cache initial !! tokenizer_hash_of XGrammarFacts.tokenizer_a = None
  ∧ exists d, (get_tokenizer_data XGrammarFacts.tokenizer_a initial).1 = inr d
              ∧ length (encoded_vocab d) = Z.to_nat (vocab_size d).
Proof.
  assert (tokenizer_cache initial !! tokenizer_hash_of XGrammarFacts.tokenizer_a = None) as Hm
    by reflexivity.
  destruct (vocabulary_keeps_indexing XGrammarFacts.tokenizer_a initial
              [("a", 0); ("b", 1); ("c", 2); ("d", 3)] Hm eq_refl) as (d & Hd & _ & _ & Hlen & _).
  { repeat constructor; simpl; lia. }
  exact (conj Hm (ex_intro _ d (conj Hd Hlen))).
Defined.

(** *** Configurations built from guided-decoding parameters *)

(** Exactly one of the three modes of a configuration is set. *)
Definition one_mode (g : GrammarConfig) : Prop :=
  (is_Some (json_str g) ∧ grammar_str g = None ∧ json_object g = None)
  ∨ (json_str g = None ∧ is_Some (grammar_str g) ∧ json_object g = None)
  ∨ (json_str g = None ∧ grammar_str g = None ∧ json_object g = Some true).

Section GuidedParams.
Context {Dict Ctx : Type}.
Variable dumps : Dict -> string.
Variable dict_nonempty : Dict -> bool.
Variable from_json_schema : string -> bool -> option string.
Variable from_ebnf : string -> option string.
Variable grammar_is_likely_lark : string -> bool.
Variable convert_lark_to_gbnf : string -> option string.
Variable compile_json_schema : GrammarCompiler -> string -> bool -> Ctx.
Variable compile_grammar : GrammarCompiler -> string -> Ctx.
Variable compile_builtin_json_grammar : GrammarCompiler -> Ctx.

Abbreviation from_params :=
  (from_guided_params dumps dict_nonempty from_json_schema from_ebnf
     grammar_is_likely_lark convert_lark_to_gbnf).
Abbreviation ensure :=
  (_ensure_ctx compile_json_schema compile_grammar compile_builtin_json_grammar).

Lemma from_guided_params_config (gp : GuidedDecodingParams) (vsize threads : Z)
    (tok : Tokenizer) (c c' : Caches) (g : GrammarConfig) :
  from_params gp vsize tok threads c = (inr g, c') ->
  exists d, get_tokenizer_data tok c = (inr d, c')
            ∧ tokenizer_data g = Some d
            ∧ tokenizer_hash g = tokenizer_hash_of tok
            ∧ config_vocab_size g = vsize
            ∧ max_threads g = threads
            ∧ one_mode g.
Proof.
  unfold from_guided_params, one_mode.
  destruct (get_tokenizer_data tok c) as [[e|d] c1]; [intros [= ]|].
  intros Hres. exists d.
  destruct (json_truthy dict_nonempty (json gp)).
  { destruct (from_json_schema _ _); [done|]. injection Hres as <- <-. simpl.
    split_and!; try done. left. by split_and!. }
  destruct (str_truthy (grammar gp)).
  { destruct (if grammar_is_likely_lark _ then _ else _) as [gs|]; [|done].
    destruct (from_ebnf gs); [done|]. injection Hres as <- <-. simpl.
    split_and!; try done. right; left. by split_and!. }
  destruct (default false (guided_json_object gp)).
  { injection Hres as <- <-. simpl. split_and!; try done. right; right. by split_and!. }
  destruct (list_truthy (choice gp)); [|done].
  destruct (choice_as_grammar (choice gp)) as [e|gs]; [done|].
  destruct (from_ebnf gs); [done|]. injection Hres as <- <-. simpl.
  split_and!; try done. right; left. by split_and!.
Qed.

(** X13. A configuration from [from_guided_params] can be compiled.
    Whenever [from_guided_params] returns a configuration, it carries the
    cached data and the hash of the tokenizer and exactly one of
    [json_str], [grammar_str], [json_object]; so on a fresh processor
    [_ensure_ctx], after any calls to the caches in between, raises
    neither the assertion of [get_compiler] nor ['Invalid
    configuration']: it sets [ctx]; and called again it changes
    nothing. *)
Theorem guided_config_compiles (gp : GuidedDecodingParams) (vsize threads : Z)
    (tok : Tokenizer) (c c' : Caches) (g : GrammarConfig) (between : list call) :
  from_params gp vsize tok threads c = (inr g, c') ->
  tokenizer_data g = tokenizer_cache c' !! tokenizer_hash_of tok
  ∧ is_Some (tokenizer_data g)
  ∧ tokenizer_hash g = tokenizer_hash_of tok
  ∧ one_mode g
  ∧ (let r := ensure g None (run_calls between c') in
     r.1.1 = None ∧ is_Some r.1.2
     ∧ ensure g r.1.2 r.2 = (None, r.1.2, r.2)).
Proof.
  intros Hres.
  destruct (from_guided_params_config gp vsize threads tok c c' g Hres)
    as (d & Hd & Hdata & Hhash & _ & _ & Hmode).
  pose proof (XGrammarFacts.get_tokenizer_data_cached tok c d c' Hd) as Hcached.
  rewrite Hcached.
  split; [done|]. split; [by eexists|]. split; [done|]. split; [done|].
  unfold _ensure_ctx.
  assert (exists k c2, get_compiler g (run_calls between c') = (inr k, c2)) as (k & c2 & ->).
  { unfold get_compiler. destruct (compiler_cache _ !! _); [by eexists _, _|].
    rewrite Hdata. by eexists _, _. }
  destruct Hmode as [([js Hjs] & Hgs & Hjo)|[(Hjs & [gs Hgs] & Hjo)|(Hjs & Hgs & Hjo)]];
    rewrite ?Hjs, ?Hgs, ?Hjo; simpl; split_and!; try done; by eexists.
Qed.

(** With none of the four inputs set (an empty string, an empty
    dictionary and an empty choice list count as not set) there is no
    configuration. *)
Lemma from_guided_params_nothing_set (gp : GuidedDecodingParams) (vsize threads : Z)
    (tok : Tokenizer) (c : Caches) :
  json_truthy dict_nonempty (json gp) = false ->
  str_truthy (grammar gp) = false ->
  default false (guided_json_object gp) = false ->
  list_truthy (choice gp) = false ->
  exists e, (from_params gp vsize tok threads c).1 = inl e.
Proof.
  intros Hj Hg Ho Hc. unfold from_guided_params.
  destruct (get_tokenizer_data tok c) as [[e|d] c1]; [by eexists|].
  rewrite Hj, Hg, Ho, Hc. by eexists.
Qed.
End GuidedParams.

(** A request for one of two choices, with checks that accept every
    grammar. *)
Definition yes_no : GuidedDecodingParams (Dict := unit) :=
  {| json := None; grammar := Some EmptyString; guided_json_object := None;
     choice := Some ["yes"; "no"]; backend_options := [] |}.

Lemma guided_config_compiles_witness :
  exists g c',
    from_guided_params (fun _ : unit => EmptyString) (fun _ => false) (fun _ _ => None)
      (fun _ => None) (fun _ => false) (fun _ => None) yes_no 3 XGrammarFacts.tokenizer_a 8
      initial = (inr g, c')
    ∧ one_mode g.
Proof.
  eexists _, _. split; [reflexivity|].
  refine (proj1 (proj2 (proj2 (proj2 (guided_config_compiles (Ctx := unit)
            (fun _ : unit => EmptyString) (fun _ => false) (fun _ _ => None)
            (fun _ => None) (fun _ => false) (fun _ => None)
            (fun _ _ _ => tt) (fun _ _ => tt) (fun _ => tt)
            yes_no 3 8 XGrammarFacts.tokenizer_a initial _ _ [] eq_refl))))).
Defined.

End XGrammarMore.

(** ** The executor from start-up to cache initialisation *)

Module ExecutorMore.
Import Executor ExecutorFacts.

Section Methods.
Context {W : Type} `{WorkerBase W}.

Lemma true_div_cases (a b : Z) :
  (b = 0 ∧ true_div a b = inl ZeroDivisionError)
  ∨ (b ≠ 0 ∧ float_overflow_bound * Z.abs b <= Z.abs a ∧ true_div a b = inl OverflowError)
  ∨ (b ≠ 0 ∧ Z.abs a < float_overflow_bound * Z.abs b ∧ exists q, true_div a b = inr q).
Proof.
  unfold true_div. destruct (b =? 0) eqn:E0.
  - left. apply Z.eqb_eq in E0. done.
  - apply Z.eqb_neq in E0. right.
    destruct (float_overflow_bound * Z.abs b <=? Z.abs a) eqn:E1.
    + left. apply Z.leb_le in E1. done.
    + right. apply Z.leb_gt in E1. split_and!; [done|done|by eexists].
Qed.

(** X17. When [initialize_cache] reaches the worker. The worker's
    [initialize_cache] is called, once and with both counts as given,
    exactly when [driver_worker] is set, [max_model_len] is not 0 and the
    logged quotient [num_gpu_blocks * block_size / max_model_len] is
    within float range. Otherwise the method raises with the executor
    unchanged and the worker not called: [ZeroDivisionError] for
    [max_model_len] 0, [OverflowError] for a quotient out of range, and
    [AttributeError] on an executor without worker only after those two
    checks and both log records. *)
Theorem initialize_cache_reaches_worker (ex : GPUExecutor W) (g c : Z) :
  let r := initialize_cache g c ex in
  let len := max_model_len (model_config ex) in
  let tokens := g * block_size (cache_config ex) in
  (worker_calls r.2 = [InitializeCache g c]
   <-> is_Some (driver_worker ex) ∧ len ≠ 0
       ∧ Z.abs tokens < float_overflow_bound * Z.abs len)
  ∧ (worker_calls r.2 = [InitializeCache g c]
     ∨ worker_calls r.2 = [] ∧ r.1.2 = ex ∧ is_Some r.1.1)
  ∧ (len = 0 -> r = (Some ZeroDivisionError, ex, [LogBlocks g c]))
  ∧ (len ≠ 0 -> float_overflow_bound * Z.abs len <= Z.abs tokens ->
     r = (Some OverflowError, ex, [LogBlocks g c]))
  ∧ (len ≠ 0 -> Z.abs tokens < float_overflow_bound * Z.abs len ->
     driver_worker ex = None ->
     r.1 = (Some AttributeError, ex) ∧ length r.2 = 2%nat).
Proof.
  intros r len tokens. unfold r, initialize_cache. fold len tokens.
  destruct (true_div_cases tokens len) as [[Hz E]|[(Hnz & Hbig & E)|(Hnz & Hsmall & q & E)]];
    rewrite E.
  - split; [split; [done|intros (_ & Hne & _); done]|].
    split; [right; split_and!; [done|done|by eexists]|].
    split; [done|]. split; [done|]. intros Hne. done.
  - split; [split; [done|intros (_ & _ & Hlt); lia]|].
    split; [right; split_and!; [done|done|by eexists]|].
    split; [done|]. split; [done|]. intros _ Hlt. lia.
  - destruct (driver_worker ex) as [w|] eqn:Hw.
    + destruct (worker_initialize_cache g c w) as [e w'] eqn:Ew. simpl.
      split; [split; [intros _; split_and!; [by eexists|done|done]|done]|].
      split; [by left|].
      split; [done|]. split; [intros _ Hge; lia|]. intros _ _ Hnone. done.
    + simpl.
      split; [split; [done|intros ([w Hw'] & _); done]|].
      split; [right; split_and!; [done|done|by eexists]|].
      split; [done|]. split; [intros _ Hge; lia|]. done.
Qed.

(** X18. Start-up in order. Before [_init_executor] has run
    [determine_num_available_blocks] raises [AttributeError] and nothing
    is called. When [_init_executor] returns, the worker made by the
    factory has been through [init_device] and [load_model], in that
    order, and is the [driver_worker];
    [determine_num_available_blocks] then calls that worker and returns
    its answer, and the worker it leaves behind is the one a following
    [initialize_cache] calls with the counts, provided the logged
    quotient can be computed. *)
Theorem startup_in_order (ex : GPUExecutor W) (g c : Z) :
  (driver_worker ex = None ->
   determine_num_available_blocks ex = (inl AttributeError, ex, []))
  ∧ (let r := _init_executor ex in
     r.1.1 = None ->
     exists w0 w,
       world_size (parallel_config ex) = 1
       ∧ _create_worker (parallel_config ex) (scheduler_config ex)
           (cache_config ex) (model_config ex) = inr w0
       ∧ w = (load_model (init_device w0).2).2
       ∧ driver_worker r.1.2 = Some w
       ∧ r.2 = [CreateWorker; InitDevice; LoadModel]
       ∧ let d := determine_num_available_blocks r.1.2 in
         d.1.1 = (worker_determine_num_available_blocks w).1
         ∧ d.2 = [DetermineNumAvailableBlocks]
         ∧ (max_model_len (model_config ex) ≠ 0 ->
            Z.abs (g * block_size (cache_config ex))
              < float_overflow_bound * Z.abs (max_model_len (model_config ex)) ->
            let w' := (worker_determine_num_available_blocks w).2 in
            let i := initialize_cache g c d.1.2 in
            i.1.1 = (worker_initialize_cache g c w').1
            ∧ driver_worker i.1.2 = Some (worker_initialize_cache g c w').2
            ∧ worker_calls i.2 = [InitializeCache g c])).
Proof.
  split.
  - intros Hw. unfold determine_num_available_blocks. by rewrite Hw.
  - intros r. unfold r, _init_executor.
    destruct (world_size (parallel_config ex) =? 1) eqn:E1; simpl; [|done].
    apply Z.eqb_eq in E1.
    destruct (_create_worker _ _ _ _) as [e|w0] eqn:Ec; simpl; [done|].
    destruct (init_device w0) as [[e1|] w1] eqn:Ei; simpl; [done|].
    destruct (load_model w1) as [e2 w2] eqn:El; simpl. intros ->.
    exists w0, w2. rewrite Ei. simpl. rewrite El. simpl.
    split_and!; try done.
    + unfold determine_num_available_blocks. simpl.
      by destruct (worker_determine_num_available_blocks w2).
    + unfold determine_num_available_blocks. simpl.
      by destruct (worker_determine_num_available_blocks w2).
    + intros Hlen Hfin.
      unfold determine_num_available_blocks. simpl.
      destruct (worker_determine_num_available_blocks w2) as [res w3] eqn:Ed. simpl.
      unfold initialize_cache. simpl.
      destruct (true_div_defined _ _ Hlen Hfin) as [q ->].
      destruct (worker_initialize_cache g c w3) as [e w4] eqn:Ew. simpl. done.
Qed.
End Methods.

Example startup_run :
  let r := _init_executor (H := recording_worker) (executor_with 1 2048 None) in
  let d := determine_num_available_blocks (H := recording_worker) r.1.2 in
  let i := initialize_cache (H := recording_worker) 100 20 d.1.2 in
  r.1.1 = None ∧ d.1.1 = inr (100, 20)
  ∧ i.1 = (None, executor_with 1 2048 (Some [(100, 20)])).
Proof. vm_compute. done. Qed.

Example initialize_cache_overflow_run :
  initialize_cache (H := recording_worker) (2 ^ 1024) 20 (executor_with 1 16 (Some []))
  = (Some OverflowError, executor_with 1 16 (Some []), [LogBlocks (2 ^ 1024) 20]).
Proof. vm_compute. reflexivity. Qed.

End ExecutorMore.

(** ** Preprocessing prompts *)

Module PreprocessMore.
Import Preprocess.

(** The text of a prompt, if it has one. *)
Definition text_of (p : SingletonPrompt) : option string :=
  match p with
  | StrPrompt content => Some content
  | TokensPrompt _ => None
  | TextPrompt text => Some text
  end.

(** A preprocessor made with [skip_tokenizer_init]. *)
Definition without_tokenizer (start : option (option Z)) : InputPreprocessor :=
  {| model_config := Some {| hf_config := Some {| decoder_start_token_id := start |} |};
     tokenizer := None |}.

Section Generation.
Variable default_prompt : InputPreprocessor -> exn + list Z.

Abbreviation prepare := (_prepare_decoder_input_ids_for_generation default_prompt).

Lemma getitem_index_head (x : Z) (l : list Z) : PyList.getitem_index (x :: l) 0 = inr x.
Proof. by destruct (BlockMore.getitem_index_lookup (x :: l) 0 x eq_refl) as [E _]. Qed.

Lemma prepare_given (self : InputPreprocessor) (s : Z) (l : list Z) :
  get_decoder_start_token_id self = Some s ->
  prepare self (Some l) true = inr (if bool_decide (head l = Some s) then l else s :: l)
  ∧ prepare self (Some l) false = inr l.
Proof.
  intros Hs. unfold _prepare_decoder_input_ids_for_generation. rewrite Hs. simpl.
  split; [|done]. destruct l as [|x l]; [done|].
  change (Z.of_nat (length (x :: l)) =? 0) with false. cbn iota.
  rewrite getitem_index_head. simpl.
  destruct (x =? s) eqn:E; simpl.
  - apply Z.eqb_eq in E as ->. by rewrite bool_decide_eq_true_2.
  - apply Z.eqb_neq in E. rewrite bool_decide_eq_false_2; [done|]. intros [= ->]. done.
Qed.

(** X19. Decoder ids begin with the start token. When the preprocessor
    has a decoder start token [s], preparing given ids with [force_bos]
    never raises: the ids come back as they are when they begin with
    [s] and with [s] put in front otherwise, so the result always begins
    with [s] and ends with the given ids, and preparing the result again
    changes nothing. Without [force_bos] the ids come back as given. *)
Theorem prepared_ids_begin_with_start (self : InputPreprocessor) (s : Z) (l : list Z) :
  get_decoder_start_token_id self = Some s ->
  exists r,
    prepare self (Some l) true = inr r
    ∧ head r = Some s
    ∧ (r = l ∨ r = s :: l)
    ∧ (r = l <-> head l = Some s)
    ∧ prepare self (Some r) true = inr r
    ∧ prepare self (Some l) false = inr l.
Proof.
  intros Hs. destruct (prepare_given self s l Hs) as [Ht Hf].
  exists (if bool_decide (head l = Some s) then l else s :: l).
  split; [done|].
  assert (head (if bool_decide (head l = Some s) then l else s :: l) = Some s) as Hhead.
  { destruct (bool_decide (head l = Some s)) eqn:E; [|done].
    by apply bool_decide_eq_true in E. }
  split; [done|]. split; [destruct (bool_decide _); [by left|by right]|].
  split.
  { destruct (bool_decide (head l = Some s)) eqn:E.
    - apply bool_decide_eq_true in E. done.
    - apply bool_decide_eq_false in E. split; [|done].
      intros Heq. apply (f_equal length) in Heq. simpl in Heq. lia. }
  split; [|done].
  set (r := if bool_decide (head l = Some s) then l else s :: l) in *.
  destruct (prepare_given self s r Hs) as [-> _].
  by rewrite bool_decide_eq_true_2.
Qed.

(** X20. Where the start token comes from. The decoder start token is
    the [decoder_start_token_id] of [hf_config] when that attribute is
    there and not [None], whatever the tokenizer; otherwise the BOS token
    of the tokenizer. So there is none exactly when the model or
    [hf_config] is missing, or the attribute gives nothing and the
    tokenizer is missing or has no BOS token; and exactly then preparing
    given decoder ids raises [AssertionError], [force_bos] or not. *)
Theorem decoder_start_token_fallback (self : InputPreprocessor) (l : list Z) (force_bos : bool) :
  (forall mc hf s, model_config self = Some mc -> hf_config mc = Some hf ->
     decoder_start_token_id hf = Some (Some s) ->
     get_decoder_start_token_id self = Some s)
  ∧ (forall mc hf, model_config self = Some mc -> hf_config mc = Some hf ->
       getattr_decoder_start_token_id hf = None ->
       get_decoder_start_token_id self = get_bos_token_id self)
  ∧ (get_decoder_start_token_id self = None
     <-> model_config self = None
         ∨ (exists mc, model_config self = Some mc ∧ hf_config mc = None)
         ∨ (exists mc hf, model_config self = Some mc ∧ hf_config mc = Some hf
                          ∧ getattr_decoder_start_token_id hf = None
                          ∧ (tokenizer self = None
                             ∨ exists t, tokenizer self = Some t ∧ bos_token_id t = None)))
  ∧ (prepare self (Some l) force_bos = inl AssertionError
     <-> get_decoder_start_token_id self = None)
  ∧ (forall e, prepare self (Some l) force_bos = inl e -> e = AssertionError).
Proof.
  split; [|split; [|split; [|split]]].
  - intros mc hf s Hmc Hhf Hattr. unfold get_decoder_start_token_id.
    rewrite Hmc, Hhf. unfold getattr_decoder_start_token_id. by rewrite Hattr.
  - intros mc hf Hmc Hhf Hattr. unfold get_decoder_start_token_id.
    by rewrite Hmc, Hhf, Hattr.
  - unfold get_decoder_start_token_id, get_bos_token_id.
    destruct (model_config self) as [mc|] eqn:Hmc; [|split; [by left|done]].
    destruct (hf_config mc) as [hf|] eqn:Hhf.
    2:{ split; [|done]. intros _. right. left. by exists mc. }
    destruct (getattr_decoder_start_token_id hf) as [s|] eqn:Hattr.
    { split; [done|]. intros [?|[(mc' & [= <-] & Hn)|(mc' & hf' & [= <-] & Hhf' & Hn & _)]].
      - done.
      - congruence.
      - congruence. }
    destruct (tokenizer self) as [t|] eqn:Ht.
    + split.
      * intros Hb. right. right. exists mc, hf. split_and!; try done. right. by exists t.
      * intros [?|[(mc' & [= <-] & Hn)|(mc' & hf' & [= <-] & Hhf' & Hn & [?|(t' & [= <-] & Hb)])]];
          congruence.
    + split; [|done]. intros _. right. right. exists mc, hf. split_and!; try done. by left.
  - unfold _prepare_decoder_input_ids_for_generation.
    destruct (get_decoder_start_token_id self) as [s|] eqn:Hs; [|done].
    split; [|done]. simpl. destruct force_bos; simpl; [|done].
    destruct l as [|x l]; [done|].
    change (Z.of_nat (length (x :: l)) =? 0) with false. cbn iota.
    rewrite getitem_index_head. by destruct (negb (x =? s)).
  - intros e. unfold _prepare_decoder_input_ids_for_generation.
    destruct (get_decoder_start_token_id self) as [s|] eqn:Hs; [|by intros [= <-]].
    simpl. destruct force_bos; simpl; [|done].
    destruct l as [|x l]; [done|].
    change (Z.of_nat (length (x :: l)) =? 0) with false. cbn iota.
    rewrite getitem_index_head. by destruct (negb (x =? s)).
Qed.
End Generation.

Lemma prepared_ids_begin_with_start_witness :
  get_decoder_start_token_id (without_tokenizer (Some (Some 2))) = Some 2
  ∧ exists r, _prepare_decoder_input_ids_for_generation (fun _ => inr [])
                (without_tokenizer (Some (Some 2))) (Some [5; 6]) true = inr r
              ∧ head r = Some 2.
Proof.
  assert (get_decoder_start_token_id (without_tokenizer (Some (Some 2))) = Some 2) as Hs
    by reflexivity.
  destruct (prepared_ids_begin_with_start (fun _ => inr [])
              (without_tokenizer (Some (Some 2))) 2 [5; 6] Hs) as (r & Hr & Hh & _).
  exact (conj Hs (ex_intro _ r (conj Hr Hh))).
Defined.

Example no_start_token_run :
  _prepare_decoder_input_ids_for_generation (fun _ => inr []) (without_tokenizer None)
    (Some [5; 6]) true
  = inl AssertionError.
Proof. reflexivity. Qed.

(** X21. Text needs the tokenizer, token ids do not. A prompt of token
    ids is returned with its ids unchanged and no text, without the
    tokenizer being asked; a string or text prompt is returned with
    that text and the ids [encode] gives for it under the request id,
    and an exception of [encode] is the outcome. Without tokenizer
    ([skip_tokenizer_init]) exactly the prompts of token ids are
    accepted, the others raise [ValueError], and there is no BOS or EOS
    token id. *)
Theorem preprocess_text_needs_tokenizer (self : InputPreprocessor) (p : SingletonPrompt)
    (request_id : string) :
  (forall ids, p = TokensPrompt ids ->
     preprocess self p request_id = inr {| prompt_token_ids := ids; prompt := None |})
  ∧ (forall t text, tokenizer self = Some t -> text_of p = Some text ->
       preprocess self p request_id
       = match encode t request_id text with
         | inl e => inl e
         | inr ids => inr {| prompt_token_ids := ids; prompt := Some text |}
         end)
  ∧ (forall r, preprocess self p request_id = inr r -> prompt r = text_of p)
  ∧ (tokenizer self = None ->
     (text_of p = None <-> exists r, preprocess self p request_id = inr r)
     ∧ (text_of p ≠ None <-> preprocess self p request_id = inl ValueError)
     ∧ get_bos_token_id self = None ∧ get_eos_token_id self = None).
Proof.
  unfold preprocess, _process_decoder_only_prompt, _extract_prompt_components,
    _tokenize_prompt, get_tokenizer_group, get_bos_token_id, get_eos_token_id.
  split; [|split; [|split]].
  - by intros ids ->.
  - intros t text Ht Htext. rewrite Ht.
    destruct p as [content|ids|content]; simpl in Htext; try done;
      injection Htext as ->; by destruct (encode t request_id text).
  - intros r. destruct p as [content|ids|content]; simpl.
    + destruct (tokenizer self) as [t|]; [|done].
      destruct (encode t request_id content); [done|]. by intros [= <-].
    + by intros [= <-].
    + destruct (tokenizer self) as [t|]; [|done].
      destruct (encode t request_id content); [done|]. by intros [= <-].
  - intros ->. destruct p as [content|ids|content]; simpl.
    + split; [split; [done|by intros [r ?]]|]. split; [done|]. done.
    + split; [split; [by eexists|done]|]. split; [done|]. done.
    + split; [split; [done|by intros [r ?]]|]. split; [done|]. done.
Qed.

Example skip_tokenizer_run :
  preprocess (without_tokenizer None) (TokensPrompt [1; 2; 3]) "r0"
  = inr {| prompt_token_ids := [1; 2; 3]; prompt := None |}
  ∧ preprocess (without_tokenizer None) (TextPrompt "hello") "r0" = inl ValueError.
Proof. done. Qed.

End PreprocessMore.
